(** * andromeda: ray tracing of a thin accretion disk around a black hole

    Shallow embedding of [common/common.py], [accretion_structures/simple_disk.py]
    and [parallel.py], and the properties of the intersection resolver, the
    work partitioner and the result reducer.

    Numbers.  Python integers are [Z].  Python/NumPy floating-point numbers
    are modelled by exact rationals [Q]: every comparison and arithmetic
    operation of the source is kept, rounding is not modelled.  Where
    rounding decides a property, the flux profile is also given over IEEE 754
    binary64 numbers ([SimpleDisk.energy_flux_b64]), with the operations of
    [SpecFloat].  The library functions [numpy.cos] and
    [scipy.integrate.odeint] are left abstract (class [NumLib]); every
    statement holds for every implementation. *)

From Stdlib Require Import ZArith QArith Qabs Lia Lqa SpecFloat.
From stdpp Require Import base list.

Local Open Scope Z_scope.

(** ** Python exceptions and the error monad *)

Inductive exn : Set :=
| IndexError
| ZeroDivisionError
| ValueError
| TypeError
| AttributeError.

Definition result (A : Type) : Type := (exn + A)%type.

Definition ret {A} (a : A) : result A := inr a.
Definition raise {A} (e : exn) : result A := inl e.

Definition bind {A B} (m : result A) (k : A -> result B) : result B :=
  match m with
  | inl e => inl e
  | inr a => k a
  end.

Notation "x <- m ;; k" := (bind m (fun x => k))
  (at level 20, m at level 99, k at level 200, only parsing).
Notation "' pat <- m ;; k" := (bind m (fun x => match x with pat => k end))
  (at level 20, pat pattern, m at level 99, k at level 200, only parsing).

(** [for x in l: body] over a state [S]; an exception leaves the loop. *)
Fixpoint for_ {A S} (l : list A) (body : A -> S -> result S) (s : S) : result S :=
  match l with
  | [] => ret s
  | x :: l' => s' <- body x s ;; for_ l' body s'
  end.

(** [[f(x) for x in l]] with exceptions: the first failure is the result. *)
Fixpoint mapM {A B} (f : A -> result B) (l : list A) : result (list B) :=
  match l with
  | [] => ret []
  | x :: l' => y <- f x ;; ys <- mapM f l' ;; ret (y :: ys)
  end.

(** Reading an attribute that is [None]. *)
Definition not_none {A} (o : option A) : result A :=
  match o with
  | Some a => ret a
  | None => raise TypeError
  end.

(** Reading an attribute that has not been assigned yet. *)
Definition attr {A} (o : option A) : result A :=
  match o with
  | Some a => ret a
  | None => raise AttributeError
  end.

(** ** Rational comparisons as booleans *)

Definition Qlt_bool (x y : Q) : bool := negb (Qle_bool y x).
Definition Qgt_bool (x y : Q) : bool := Qlt_bool y x.

(** ** Python floats: IEEE 754 binary64 *)
Module Binary64.

Definition prec : Z := 53.
Definition emax : Z := 1024.

(** The float of an integer literal. *)
Definition of_Z (n : Z) : spec_float := binary_normalize prec emax n 0 false.

Definition sub : spec_float -> spec_float -> spec_float := SFsub prec emax.
Definition mul : spec_float -> spec_float -> spec_float := SFmul prec emax.
Definition ltb : spec_float -> spec_float -> bool := SFltb.

Definition is_zero (x : spec_float) : bool :=
  match x with
  | S754_zero _ => true
  | _ => false
  end.

(** [a / b] on floats: a zero divisor of either sign raises. *)
Definition truediv (a b : spec_float) : result spec_float :=
  if is_zero b then raise ZeroDivisionError else ret (SFdiv prec emax a b).

End Binary64.

(** ** Python and NumPy primitives *)
Module Py.

(** [range(a, b)] *)
Definition range (a b : Z) : list Z := seqZ a (b - a).

(** [divmod(a, b)] on integers: floor division, [ZeroDivisionError] on 0. *)
Definition divmod (a b : Z) : result (Z * Z) :=
  if b =? 0 then raise ZeroDivisionError else ret (a / b, a mod b).

(** [a // b] and [a % b] *)
Definition floordiv (a b : Z) : result Z :=
  if b =? 0 then raise ZeroDivisionError else ret (a / b).
Definition modulo (a b : Z) : result Z :=
  if b =? 0 then raise ZeroDivisionError else ret (a mod b).

(** [a / b] on floats: [ZeroDivisionError] when the divisor is zero. *)
Definition truediv (a b : Q) : result Q :=
  if Qeq_bool b 0 then raise ZeroDivisionError else ret (a / b)%Q.

(** [l[i]] on a sequence: negative indices count from the end. *)
Definition getitem {A} (l : list A) (i : Z) : result A :=
  let n := Z.of_nat (length l) in
  let i' := if i <? 0 then i + n else i in
  if (0 <=? i') && (i' <? n) then
    match l !! Z.to_nat i' with
    | Some a => ret a
    | None => raise IndexError
    end
  else raise IndexError.

(** [l[i] = v] *)
Definition setitem {A} (l : list A) (i : Z) (v : A) : result (list A) :=
  let n := Z.of_nat (length l) in
  let i' := if i <? 0 then i + n else i in
  if (0 <=? i') && (i' <? n) then ret (<[Z.to_nat i' := v]> l)
  else raise IndexError.

(** [len(l)] *)
Definition len {A} (l : list A) : Z := Z.of_nat (length l).

End Py.

(** ** Data model: positions, phase states and the external collaborators *)

(** A position or a momentum: the 4 components [x[0]], ..., [x[3]]. *)
Record Vec4 : Set := mkVec4 { v0 : Q; v1 : Q; v2 : Q; v3 : Q }.

(** [[t, r, theta, phi, k_t, k_r, k_theta, k_phi]]: one row of a trajectory,
    indexed 0..7. *)
Record PhaseState : Set := mkPhase {
  ps_t : Q; ps_r : Q; ps_theta : Q; ps_phi : Q;
  ps_kt : Q; ps_kr : Q; ps_kth : Q; ps_kphi : Q
}.

(** [[0,0,0,0,0,0,0,0]] *)
Definition zero_state : PhaseState := mkPhase 0 0 0 0 0 0 0 0.

(** The dense 2D array of flux values. *)
Abbreviation ImageBuffer := (list (list Q)).

(** Modelled from the spec: the spacetime object passed as [blackhole] is not
    part of the sources; section 6 gives its capabilities: [metric(x)] returns
    the 5 reals (g_tt, g_rr, g_thth, g_phph, g_tph), [geodesics(state, lmbda)]
    the 8-component derivative, [EH] the horizon radius. *)
Module Blackhole.
Record t : Set := mk {
  metric : Vec4 -> Q * Q * Q * Q * Q;
  geodesics : PhaseState -> Q -> PhaseState;
  EH : Q
}.
End Blackhole.

(** Modelled from the spec: the detector object is not part of the sources;
    section 6 gives its capabilities: [photon_coords(alpha, beta)] returns the
    initial position and contravariant momentum 4-tuples; the grid dimensions
    [x_pixels], [y_pixels] with the coordinate ranges [alphaRange], [betaRange],
    and the characteristic distance [D]. *)
Module Detector.
Record t : Set := mk {
  x_pixels : Z;
  y_pixels : Z;
  alphaRange : list Q;
  betaRange : list Q;
  D : Z;
  photon_coords : Q -> Q -> Vec4 * Vec4
}.
End Detector.

(** [numpy.cos] and [scipy.integrate.odeint(func, y0, t)]: the trajectory has
    one [PhaseState] row per element of [t]. *)
Class NumLib : Type := {
  cos : Q -> Q;
  odeint : (PhaseState -> Q -> PhaseState) -> PhaseState -> list Q -> list PhaseState
}.

(** ** NumPy array primitives *)
Module Np.

(** [linspace(start, stop, num)]: [num] evenly spaced samples, end point
    included; a negative [num] is a [ValueError]. *)
Definition linspace (start stop : Q) (num : Z) : result (list Q) :=
  if num <? 0 then raise ValueError
  else
    let step := ((stop - start) / inject_Z (num - 1))%Q in
    ret ((fun k => (start + inject_Z k * step)%Q) <$> Py.range 0 num).

Fixpoint first_true (l : list bool) : option nat :=
  match l with
  | [] => None
  | b :: l' => if b then Some 0%nat else S <$> first_true l'
  end.

(** [argmax] of a boolean array: the first index holding the maximum, that
    is the first [True], or 0 when every entry is [False]; [ValueError] on
    an empty array. *)
Definition argmax (l : list bool) : result Z :=
  match l with
  | [] => raise ValueError
  | _ :: _ => ret (Z.of_nat (default 0%nat (first_true l)))
  end.

(** [zeros([n, m])] *)
Definition zeros (n m : Z) : result ImageBuffer :=
  if (n <? 0) || (m <? 0) then raise ValueError
  else ret (replicate (Z.to_nat n) (replicate (Z.to_nat m) 0%Q)).

(** [a[i, j] = v] *)
Definition setitem2 (a : ImageBuffer) (i j : Z) (v : Q) : result ImageBuffer :=
  row <- Py.getitem a i ;;
  row' <- Py.setitem row j v ;;
  Py.setitem a i row'.

(** Elementwise [a + b] of two arrays of the same shape. *)
Definition add (a b : ImageBuffer) : ImageBuffer :=
  zip_with (zip_with Qplus) a b.

(** [sum(arrays, axis=0)]: the arrays are added up in sequence order. *)
Definition sum_axis0 (arrays : list ImageBuffer) : ImageBuffer :=
  match arrays with
  | [] => []
  | a :: rest => fold_left add rest a
  end.

End Np.

(** ** accretion_structures/simple_disk.py *)
Module SimpleDisk.

Record structure : Set := mk_structure { in_edge : Q; out_edge : Q }.

(** [structure.__init__(self, blackhole, R_min, R_max, corotating=True)] *)
Definition init {BH : Type} (blackhole : BH) (R_min R_max : Q) (corotating : bool)
  : structure :=
  {| in_edge := R_min; out_edge := R_max |}.

(** [structure.energy_flux(self, r)] *)
Definition energy_flux (self : structure) (r : Q) : result Q :=
  m <- Py.truediv (1 - 0)%Q (in_edge self - out_edge self)%Q ;;
  let intensity := (m * (r - out_edge self))%Q in
  if Qgt_bool r (in_edge self) && Qlt_bool r (out_edge self)
  then ret intensity
  else ret 0%Q.

(** The same structure and method with the edges and the radius as binary64
    floats, every operation rounded to nearest. *)
Record structure_b64 : Set :=
  mk_structure_b64 { in_edge_b64 : spec_float; out_edge_b64 : spec_float }.

Definition energy_flux_b64 (self : structure_b64) (r : spec_float) : result spec_float :=
  m <- Binary64.truediv (Binary64.sub (Binary64.of_Z 1) (Binary64.of_Z 0))
         (Binary64.sub (in_edge_b64 self) (out_edge_b64 self)) ;;
  let intensity := Binary64.mul m (Binary64.sub r (out_edge_b64 self)) in
  if Binary64.ltb (in_edge_b64 self) r && Binary64.ltb r (out_edge_b64 self)
  then ret intensity
  else ret (Binary64.of_Z 0).

End SimpleDisk.


(** ** common/common.py *)
Module Common.

(** [initCond(x, k, blackhole)] *)
Definition initCond (x k : Vec4) (blackhole : Blackhole.t) : PhaseState :=
  (* Metric components *)
  let '(g_tt, g_rr, g_thth, g_phph, g_tph) := Blackhole.metric blackhole x in
  (* Lower k-indices *)
  let k_t := (g_tt * v0 k + g_tph * v3 k)%Q in
  let k_r := (g_rr * v1 k)%Q in
  let k_th := (g_thth * v2 k)%Q in
  let k_phi := (g_phph * v3 k + g_tph * v0 k)%Q in
  mkPhase (v0 x) (v1 x) (v2 x) (v3 x) k_t k_r k_th k_phi.

Module Photon.

(** The attributes of a photon; [iC] does not exist before
    [initial_conditions] has run. *)
Record t : Set := mk {
  alpha : Q;
  beta : Q;
  i : option Z;
  j : option Z;
  xin : option Vec4;
  kin : option Vec4;
  iC : option PhaseState;
  fP : option PhaseState
}.

(** [Photon.__init__(self, alpha, beta, freq=1.)] *)
Definition init (alpha beta : Q) : t :=
  {| alpha := alpha; beta := beta;
     i := None; j := None;
     xin := None; kin := None;
     iC := None;
     fP := None |}.

Definition set_coords (p : t) (x k : Vec4) : t :=
  mk (alpha p) (beta p) (i p) (j p) (Some x) (Some k) (iC p) (fP p).

Definition set_pixel (p : t) (i' j' : Z) : t :=
  mk (alpha p) (beta p) (Some i') (Some j') (xin p) (kin p) (iC p) (fP p).

Definition set_iC (p : t) (s : PhaseState) : t :=
  mk (alpha p) (beta p) (i p) (j p) (xin p) (kin p) (Some s) (fP p).

Definition set_fP (p : t) (s : PhaseState) : t :=
  mk (alpha p) (beta p) (i p) (j p) (xin p) (kin p) (iC p) (Some s).

(** [Photon.initial_conditions(self, blackhole)] *)
Definition initial_conditions (self : t) (blackhole : Blackhole.t) : result t :=
  x <- not_none (xin self) ;;
  k <- not_none (kin self) ;;
  ret (set_iC self (initCond x k blackhole)).

End Photon.

Section GeoInteg.
Context `{NumLib}.

(** The sampled trajectory: lines 80-82 of [geo_integ]. *)
Definition trajectory (p : Photon.t) (blackhole : Blackhole.t)
    (detector : Detector.t) : result (list PhaseState) :=
  let final_lmbda := 2 * Detector.D detector in
  lmbda <- Np.linspace 0%Q (- inject_Z final_lmbda)%Q (8 * final_lmbda) ;;
  iC <- attr (Photon.iC p) ;;
  ret (odeint (Blackhole.geodesics blackhole) iC lmbda).

(** [sol[:,1] < blackhole.EH + 1e-5] *)
Definition eh_condition (blackhole : Blackhole.t) (sol : list PhaseState)
  : list bool :=
  (fun s => Qlt_bool (ps_r s) (Blackhole.EH blackhole + (1 # 100000))%Q) <$> sol.

(** [(abs(sol[:,1]*cos(sol[:,2])) < 1e-1) & (sol[:,1] > in_edge)
     & (sol[:,1] < out_edge)] *)
Definition edge_condition (in_edge out_edge : Q) (sol : list PhaseState)
  : list bool :=
  (fun s =>
     Qlt_bool (Qabs (ps_r s * cos (ps_theta s))%Q) (1 # 10)%Q
     && Qgt_bool (ps_r s) in_edge
     && Qlt_bool (ps_r s) out_edge) <$> sol.

(** [geo_integ(p, blackhole, acc_structure, detector)].  The photon is
    mutated in place: the result is the photon after the call together
    with the outcome of the call (normal return or exception). *)
Definition geo_integ (p : Photon.t) (blackhole : Blackhole.t)
    (acc_structure : SimpleDisk.structure) (detector : Detector.t)
  : Photon.t * result unit :=
  let in_edge := SimpleDisk.in_edge acc_structure in
  let out_edge := SimpleDisk.out_edge acc_structure in
  match trajectory p blackhole detector with
  | inl e => (p, raise e)
  | inr sol =>
    let p := Photon.set_fP p zero_state in
    (* Put True in the index that met the condition *)
    let eh_condition := eh_condition blackhole sol in
    let edge_condition := edge_condition in_edge out_edge sol in
    (* Find the first index where the photon intersects the accretion
       structure. *)
    match (indx_eh <- Np.argmax eh_condition ;;
           indx_edge <- Np.argmax edge_condition ;;
           ret (indx_eh, indx_edge)) with
    | inl e => (p, raise e)
    | inr (indx_eh, indx_edge) =>
      match Py.getitem edge_condition indx_edge with
      | inl e => (p, raise e)
      | inr true =>
        match Py.getitem sol indx_edge with
        | inl e => (p, raise e)
        | inr s => (Photon.set_fP p s, ret tt)
        end
      | inr false =>
        match Py.getitem eh_condition indx_eh with
        | inl e => (p, raise e)
        | inr true => (Photon.set_fP p zero_state, ret tt)
        | inr false => (p, ret tt)
        end
      end
    end
  end.

End GeoInteg.

Module Image.

(** The attributes of an image; [detector] and [photon_list] are created
    by [create_photons], [image_data] by [create_image]. *)
Record t : Set := mk {
  start_alpha : Z;
  start_beta : Z;
  end_alpha : Z;
  end_beta : Z;
  detector : option Detector.t;
  photon_list : option (list Photon.t);
  image_data : option ImageBuffer
}.

(** [Image.__init__(self, start_alpha, start_beta, end_alpha, end_beta)] *)
Definition init (start_alpha start_beta end_alpha end_beta : Z) : t :=
  {| start_alpha := start_alpha; start_beta := start_beta;
     end_alpha := end_alpha; end_beta := end_beta;
     detector := None; photon_list := None; image_data := None |}.

Definition set_photons (self : t) (d : Detector.t) (l : list Photon.t) : t :=
  mk (start_alpha self) (start_beta self) (end_alpha self) (end_beta self)
     (Some d) (Some l) (image_data self).

Definition set_image (self : t) (l : list Photon.t) (a : ImageBuffer) : t :=
  mk (start_alpha self) (start_beta self) (end_alpha self) (end_beta self)
     (detector self) (Some l) (Some a).

End Image.

(** The photon built for pixel [(i, j)]: the body of the inner loop of
    [create_photons]. *)
Definition new_photon (blackhole : Blackhole.t) (detector : Detector.t)
    (i j : Z) : result Photon.t :=
  a <- Py.getitem (Detector.alphaRange detector) i ;;
  b <- Py.getitem (Detector.betaRange detector) j ;;
  let p := Photon.init a b in
  let '(xin, kin) := Detector.photon_coords detector a b in
  let p := Photon.set_coords p xin kin in
  let p := Photon.set_pixel p i j in
  Photon.initial_conditions p blackhole.

(** [Image.create_photons(self, blackhole, detector)] *)
Definition create_photons (self : Image.t) (blackhole : Blackhole.t)
    (detector : Detector.t) : result Image.t :=
  photon_list <-
    for_ (Py.range (Image.start_alpha self) (Image.end_alpha self + 1))
      (fun i photon_list =>
         let beta_start :=
           if i =? Image.start_alpha self then Image.start_beta self else 0 in
         let beta_end :=
           if i =? Image.end_alpha self then Image.end_beta self
           else Py.len (Detector.betaRange detector) in
         for_ (Py.range beta_start beta_end)
           (fun j photon_list =>
              p <- new_photon blackhole detector i j ;;
              ret (photon_list ++ [p]))
           photon_list)
      [] ;;
  ret (Image.set_photons self detector photon_list).

Section CreateImage.
Context `{NumLib}.

(** One iteration of the loop of [create_image]: trace the photon, sample
    the flux at the terminal radius and store it at the photon's pixel.
    (Photons of [photon_list] always carry integer pixel indices.) *)
Definition trace_photon (blackhole : Blackhole.t)
    (acc_structure : SimpleDisk.structure) (detector : Detector.t)
    (p : Photon.t) (st : list Photon.t * ImageBuffer)
  : result (list Photon.t * ImageBuffer) :=
  let '(traced, image_data) := st in
  let '(p, outcome) := geo_integ p blackhole acc_structure detector in
  _ <- outcome ;;
  fP <- not_none (Photon.fP p) ;;
  flux <- SimpleDisk.energy_flux acc_structure (ps_r fP) ;;
  i <- not_none (Photon.i p) ;;
  j <- not_none (Photon.j p) ;;
  image_data <- Np.setitem2 image_data i j flux ;;
  ret (traced ++ [p], image_data).

(** [Image.create_image(self, blackhole, acc_structure)] *)
Definition create_image (self : Image.t) (blackhole : Blackhole.t)
    (acc_structure : SimpleDisk.structure) : result Image.t :=
  detector <- attr (Image.detector self) ;;
  image_data <- Np.zeros (Detector.x_pixels detector) (Detector.y_pixels detector) ;;
  photon_list <- attr (Image.photon_list self) ;;
  st <- for_ photon_list (trace_photon blackhole acc_structure detector)
          ([], image_data) ;;
  ret (Image.set_image self (fst st) (snd st)).

End CreateImage.

End Common.

(** ** parallel.py *)
Module Parallel.

(** The linear index range [[start_idx, end_idx)] of a rank: lines 12-21 of
    [distribute]. *)
Definition index_range (rank size : Z) (detector : Detector.t) : result (Z * Z) :=
  let total_photons := Detector.x_pixels detector * Detector.y_pixels detector in
  photons_per_rank <- Py.floordiv total_photons size ;;
  rest <- Py.modulo total_photons size ;;
  if rank <? rest then
    let start_idx := rank * (photons_per_rank + 1) in
    let end_idx := start_idx + photons_per_rank + 1 in
    ret (start_idx, end_idx)
  else
    let start_idx := (rank * photons_per_rank) + rest in
    let end_idx := start_idx + photons_per_rank in
    ret (start_idx, end_idx).

(** [distribute(rank, size, detector)] *)
Definition distribute (rank size : Z) (detector : Detector.t)
  : result (Z * Z * Z * Z) :=
  '(start_idx, end_idx) <- index_range rank size detector ;;
  '(start_alpha, start_beta) <-
    Py.divmod start_idx (Py.len (Detector.betaRange detector)) ;;
  '(end_alpha, end_beta) <-
    Py.divmod end_idx (Py.len (Detector.betaRange detector)) ;;
  ret (start_alpha, start_beta, end_alpha, end_beta).

(** [comm.gather(image_data, root=0)]: the communicator is modelled by the
    buffers its ranks send, in rank order; the root receives them all, the
    other ranks receive [None]. *)
Definition comm_gather (comm : list ImageBuffer) (rank root : Z)
  : option (list ImageBuffer) :=
  if rank =? root then Some comm else None.

(** [gather_and_process_data(image_data, detector, rank, comm)] *)
Definition gather_and_process_data (image_data : ImageBuffer)
    (detector : Detector.t) (rank : Z) (comm : list ImageBuffer)
  : result (option ImageBuffer) :=
  let gathered_image_data := comm_gather comm rank 0 in
  if rank =? 0 then
    final_image_data <-
      Np.zeros (Detector.x_pixels detector) (Detector.y_pixels detector) ;;
    gathered <- not_none gathered_image_data ;;
    let final_image_data := Np.sum_axis0 gathered in
    ret (Some final_image_data)
  else ret None.

End Parallel.

(** ** The driver *)
Module Driver.
Section Render.
Context `{NumLib}.
Variables (blackhole : Blackhole.t) (detector : Detector.t).

(** Modelled from the spec: the driver script is not part of the sources;
    section 2 gives its data flow: Partitioner, per-worker pixel range,
    Image Assembler, partial buffer, Reducer, final buffer.  One worker: *)
Definition worker (acc_structure : SimpleDisk.structure) (rank size : Z)
  : result ImageBuffer :=
  '(start_alpha, start_beta, end_alpha, end_beta) <-
    Parallel.distribute rank size detector ;;
  let image := Common.Image.init start_alpha start_beta end_alpha end_beta in
  image <- Common.create_photons image blackhole detector ;;
  image <- Common.create_image image blackhole acc_structure ;;
  attr (Common.Image.image_data image).

(** Modelled from the spec: the [size] workers of a run and the reduction
    on the coordinator (rank 0), after every worker has completed. *)
Definition render (acc_structure : SimpleDisk.structure) (size : Z)
  : result ImageBuffer :=
  comm <- mapM (fun rank => worker acc_structure rank size) (Py.range 0 size) ;;
  image_data <- Py.getitem comm 0 ;;
  final <- Parallel.gather_and_process_data image_data detector 0 comm ;;
  not_none final.

(** Modelled from the spec: a whole run from the configuration
    [(R_min, R_max)] of the disk. *)
Definition run (R_min R_max : Q) (size : Z) : result ImageBuffer :=
  let acc_structure := SimpleDisk.init blackhole R_min R_max true in
  render acc_structure size.

End Render.
End Driver.

(** ** Vocabulary of the properties *)

Section Conditions.
Context `{NumLib}.

(** The disk-crossing condition on one sample. *)
Definition crosses_disk (acc : SimpleDisk.structure) (s : PhaseState) : Prop :=
  (Qabs (ps_r s * cos (ps_theta s)) < 1 # 10
   /\ SimpleDisk.in_edge acc < ps_r s /\ ps_r s < SimpleDisk.out_edge acc)%Q.

(** The horizon condition on one sample. *)
Definition captured (bh : Blackhole.t) (s : PhaseState) : Prop :=
  (ps_r s < Blackhole.EH bh + (1 # 100000))%Q.

End Conditions.

(** Closed forms of what [Parallel.index_range] computes for [W] workers. *)
Definition total (det : Detector.t) : Z :=
  Detector.x_pixels det * Detector.y_pixels det.
Definition base (det : Detector.t) (W : Z) : Z := total det / W.
Definition rest (det : Detector.t) (W : Z) : Z := total det mod W.

Definition start_idx (det : Detector.t) (W r : Z) : Z :=
  if r <? rest det W then r * (base det W + 1) else r * base det W + rest det W.
Definition end_idx (det : Detector.t) (W r : Z) : Z :=
  if r <? rest det W then r * (base det W + 1) + base det W + 1
  else r * base det W + rest det W + base det W.

(** The rank whose range holds a given linear index. *)
Definition owner (det : Detector.t) (W idx : Z) : Z :=
  if idx <? rest det W * (base det W + 1) then idx / (base det W + 1)
  else (idx - rest det W) / base det W.

(** The array of [n] by [m] entries holding [c i j] at position [(i, j)]. *)
Definition grid (n m : Z) (c : Z -> Z -> Q) : ImageBuffer :=
  (fun i => (fun j => c i j) <$> seqZ 0 m) <$> seqZ 0 n.

Section Pixels.
Context `{NumLib}.
Variables (bh : Blackhole.t) (det : Detector.t) (acc : SimpleDisk.structure).

(** The number of columns of the pixel grid. *)
Definition columns : Z := Py.len (Detector.betaRange det).

(** The photon of the pixel of linear index [idx]. *)
Definition photon_at (idx : Z) : result Common.Photon.t :=
  Common.new_photon bh det (idx / columns) (idx mod columns).

(** Tracing one photon and sampling the flux at its terminal radius. *)
Definition photon_flux (p : Common.Photon.t) : result Q :=
  let '(p', outcome) := Common.geo_integ p bh acc det in
  _ <- outcome ;;
  fP <- not_none (Common.Photon.fP p') ;;
  SimpleDisk.energy_flux acc (ps_r fP).

Definition flux_of (idx : Z) : result Q :=
  p <- photon_at idx ;; photon_flux p.

(** The value of pixel [idx] in the buffer of the worker that owns the
    linear range [[a, b)]. *)
Definition cell (a b idx : Z) : Q :=
  if (a <=? idx) && (idx <? b) then
    match flux_of idx with inr v => v | inl _ => 0%Q end
  else 0%Q.

Definition table (a b : Z) : ImageBuffer :=
  grid (Detector.x_pixels det) (Detector.y_pixels det)
       (fun i j => cell a b (i * columns + j)).

(** Assembling the pixels of [[a, b)] in one pass. *)
Definition assemble (a b : Z) : result ImageBuffer :=
  _ <- mapM flux_of (Py.range a b) ;; ret (table a b).

(** The linear indices that [create_photons] visits in row [i]. *)
Definition row_span (sa sb ea eb i : Z) : list Z :=
  Py.range (i * columns + (if i =? sa then sb else 0))
           (i * columns + (if i =? ea then eb else columns)).

(** Storing the flux of one photon at its pixel: what one iteration of
    [create_image] does to the buffer. *)
Definition store (p : Common.Photon.t) (image_data : ImageBuffer)
  : result ImageBuffer :=
  flux <- photon_flux p ;;
  i <- not_none (Common.Photon.i p) ;;
  j <- not_none (Common.Photon.j p) ;;
  Np.setitem2 image_data i j flux.

(** The detector's ranges have the dimensions of the grid. *)
Definition well_formed : Prop :=
  Detector.x_pixels det = Py.len (Detector.alphaRange det)
  /\ Detector.y_pixels det = Py.len (Detector.betaRange det).

End Pixels.

Section ResolverDefs.
Context `{NumLib}.

(** The test that [edge_condition] applies to one sample. *)
Definition disk_test (in_edge out_edge : Q) (s : PhaseState) : bool :=
  Qlt_bool (Qabs (ps_r s * cos (ps_theta s))%Q) (1 # 10)%Q
  && Qgt_bool (ps_r s) in_edge
  && Qlt_bool (ps_r s) out_edge.

(** The resolver written with an optional first event: the first sample that
    passes the disk test, or the all-zero state when there is none. *)
Definition first_crossing (acc : SimpleDisk.structure) (sol : list PhaseState)
  : PhaseState :=
  default zero_state
    (List.find (disk_test (SimpleDisk.in_edge acc) (SimpleDisk.out_edge acc)) sol).

End ResolverDefs.

(** An array of [n] rows of [m] entries. *)
Definition has_shape (n m : Z) (a : ImageBuffer) : Prop :=
  length a = Z.to_nat n /\ Forall (fun row => length row = Z.to_nat m) a.

(** The entry [(i, j)] of an array (0 outside it). *)
Definition entry (a : ImageBuffer) (i j : nat) : Q :=
  default 0%Q (a !! i ≫= (.!! j)).

(** ** Concrete collaborators used to exercise the definitions *)
Module Examples.

Definition ps_add (a b : PhaseState) : PhaseState :=
  mkPhase (Qred (ps_t a + ps_t b)) (Qred (ps_r a + ps_r b))
          (Qred (ps_theta a + ps_theta b)) (Qred (ps_phi a + ps_phi b))
          (Qred (ps_kt a + ps_kt b)) (Qred (ps_kr a + ps_kr b))
          (Qred (ps_kth a + ps_kth b)) (Qred (ps_kphi a + ps_kphi b)).

Definition ps_scale (c : Q) (a : PhaseState) : PhaseState :=
  mkPhase (c * ps_t a) (c * ps_r a) (c * ps_theta a) (c * ps_phi a)
          (c * ps_kt a) (c * ps_kr a) (c * ps_kth a) (c * ps_kphi a)%Q.

(** Explicit Euler steps between consecutive sample points. *)
Fixpoint euler (f : PhaseState -> Q -> PhaseState) (y : PhaseState) (t0 : Q)
    (ts : list Q) : list PhaseState :=
  match ts with
  | [] => []
  | t1 :: ts' =>
    let y' := ps_add y (ps_scale (Qred (t1 - t0)) (f y t0)) in
    y' :: euler f y' t1 ts'
  end.

(** A small numerical library: the degree-6 Taylor polynomial of the cosine
    and the Euler integrator. *)
#[export] Instance taylor_euler : NumLib := {|
  cos x := (1 - x * x / 2 + x * x * x * x / 24 - x * x * x * x * x * x / 720)%Q;
  odeint f y0 ts :=
    match ts with
    | [] => []
    | t0 :: ts' => y0 :: euler f y0 t0 ts'
    end
|}.

(** A spacetime with straight coordinate lines: the photon moves inwards at
    unit radial speed along the direction it starts with. *)
Definition straight (EH : Q) : Blackhole.t :=
  {| Blackhole.metric x := ((-1)%Q, 1%Q, (v1 x * v1 x)%Q, (v1 x * v1 x)%Q, 0%Q);
     Blackhole.geodesics s lmbda :=
       mkPhase (ps_kt s) (ps_kr s) 0 0 0 0 0 0;
     Blackhole.EH := EH |}.

(** A detector at distance [D]: the photon of image-plane coordinates
    [(a, b)] starts at radius [3 D], at polar angle [11/7 + b], moving
    inwards. *)
Definition screen (alphas betas : list Q) (D : Z) : Detector.t :=
  {| Detector.x_pixels := Py.len alphas;
     Detector.y_pixels := Py.len betas;
     Detector.alphaRange := alphas;
     Detector.betaRange := betas;
     Detector.D := D;
     Detector.photon_coords a b :=
       (mkVec4 0 (inject_Z (3 * D)) ((11 # 7) + b)%Q a, mkVec4 (-1) 1 0 0) |}.

Definition disk : SimpleDisk.structure := SimpleDisk.mk_structure 3 10.

(** A disk that reaches inside the horizon of radius 5. *)
Definition inner_disk : SimpleDisk.structure := SimpleDisk.mk_structure (1 # 2) 3.

(** A grid of 2 by 3 pixels at distance 2 and three spacetimes that differ
    in their horizon radius. *)
Definition screen23 : Detector.t := screen [0; 1]%Q [0; 1 # 100; 2]%Q 2.
Definition hole1 : Blackhole.t := straight 1.
Definition hole2 : Blackhole.t := straight 2.
Definition hole5 : Blackhole.t := straight 5.

(** A photon ready to be traced, starting at polar angle [11/7 + b]. *)
Definition photon (b : Q) : Common.Photon.t :=
  Common.Photon.set_iC (Common.Photon.init 0 b)
    (mkPhase 0 6 ((11 # 7) + b) 0 1 1 0 0).

(** Its 32 samples: the radius decreases from 6 to 2. *)
Definition path (b : Q) : list PhaseState :=
  match Common.trajectory (photon b) hole1 screen23 with
  | inr sol => sol
  | inl _ => []
  end.

Definition path0 : list PhaseState := Eval vm_compute in path 0.
Definition path2 : list PhaseState := Eval vm_compute in path 2.

(** The photons of rank 1 of 4 on the 2 by 3 grid, pixels (0, 2) and (1, 0),
    and the image that holds them. *)
Definition photons_r1 : list Common.Photon.t :=
  Eval vm_compute in
  match Common.create_photons (Common.Image.init 0 2 1 1) hole2 screen23 with
  | inr image => default [] (Common.Image.photon_list image)
  | inl _ => []
  end.

Definition image_r1 : Common.Image.t :=
  Common.Image.set_photons (Common.Image.init 0 2 1 1) screen23 photons_r1.

(** A disk reaching below radius 0, as the constructor accepts it. *)
Definition wide_disk : SimpleDisk.structure := SimpleDisk.mk_structure (-1) 1.

(** The disk of edges 3.0 and 10.0 in binary64, and the float that follows
    3.0, 3.0000000000000004 = (3 * 2^51 + 1) * 2^-51. *)
Definition disk_b64 : SimpleDisk.structure_b64 :=
  SimpleDisk.mk_structure_b64 (Binary64.of_Z 3) (Binary64.of_Z 10).

Definition after_three : spec_float := S754_finite false 6755399441055745 (-51).

End Examples.

(** * Properties *)

(** ** The flux profile *)
Section FluxProfile.
Local Open Scope Q_scope.

Lemma Qlt_bool_iff (x y : Q) : Qlt_bool x y = true <-> x < y.
Proof.
unfold Qlt_bool. rewrite negb_true_iff, <- not_true_iff_false, Qle_bool_iff.
split; [apply Qnot_le_lt | apply Qlt_not_le].
Qed.


Lemma Qgt_bool_iff (x y : Q) : Qgt_bool x y = true <-> y < x.
Proof. apply Qlt_bool_iff. Qed.

Lemma truediv_nonzero (a b : Q) : ~ b == 0 -> Py.truediv a b = inr (a / b).
Proof.
intros Hb. unfold Py.truediv.
destruct (Qeq_bool b 0) eqn:E; [|reflexivity].
apply Qeq_bool_iff in E. contradiction.
Qed.

Lemma truediv_zero (a b : Q) : b == 0 -> Py.truediv a b = inl ZeroDivisionError.
Proof.
intros Hb. unfold Py.truediv. apply Qeq_bool_iff in Hb. now rewrite Hb.
Qed.

Lemma inside_iff (acc : SimpleDisk.structure) (r : Q) :
Qgt_bool r (SimpleDisk.in_edge acc) && Qlt_bool r (SimpleDisk.out_edge acc) = true
<-> SimpleDisk.in_edge acc < r /\ r < SimpleDisk.out_edge acc.
Proof. rewrite andb_true_iff, Qgt_bool_iff, Qlt_bool_iff. reflexivity. Qed.

Lemma energy_flux_outside acc r :
~ SimpleDisk.in_edge acc == SimpleDisk.out_edge acc ->
~ (SimpleDisk.in_edge acc < r /\ r < SimpleDisk.out_edge acc) ->
SimpleDisk.energy_flux acc r = inr 0.
Proof.
intros Hne Hout. unfold SimpleDisk.energy_flux.
rewrite truediv_nonzero by (intros E; apply Hne; lra). cbn.
destruct (Qgt_bool _ _ && _) eqn:E; [|reflexivity].
apply inside_iff in E. contradiction.
Qed.

Lemma energy_flux_inside acc r :
SimpleDisk.in_edge acc < r -> r < SimpleDisk.out_edge acc ->
exists v, SimpleDisk.energy_flux acc r = inr v
  /\ v == (r - SimpleDisk.out_edge acc) / (SimpleDisk.in_edge acc - SimpleDisk.out_edge acc)
  /\ 0 < v /\ v < 1.
Proof.
intros H1 H2. unfold SimpleDisk.energy_flux.
set (i := SimpleDisk.in_edge acc) in *. set (o := SimpleDisk.out_edge acc) in *.
rewrite truediv_nonzero by lra. cbn.
destruct (Qgt_bool _ _ && _) eqn:E.
2:{ apply not_true_iff_false in E. exfalso. apply E. apply inside_iff. split; assumption. }
eexists. split; [reflexivity|].
set (v := (1 - 0) / (i - o) * (r - o)).
assert (Hv : v * (i - o) == r - o) by (unfold v; field; lra).
split; [unfold v; field; lra|].
split; nra.
Qed.
End FluxProfile.

(** ** Indexing and first-true scans *)
Section Indexing.
Context {A : Type}.
Implicit Types (l : list A) (i : Z).

Lemma getitem_nonneg l i a :
  0 <= i -> l !! Z.to_nat i = Some a -> Py.getitem l i = inr a.
Proof.
  intros Hi Hl. unfold Py.getitem.
  pose proof (lookup_lt_Some _ _ _ Hl) as Hlt.
  replace (i <? 0) with false by (symmetry; apply Z.ltb_ge; lia).
  replace (0 <=? i) with true by (symmetry; apply Z.leb_le; lia).
  replace (i <? Z.of_nat (length l)) with true by (symmetry; apply Z.ltb_lt; lia).
  cbn. now rewrite Hl.
Qed.

Lemma getitem_nonneg_inv l i a :
  0 <= i -> Py.getitem l i = inr a -> l !! Z.to_nat i = Some a.
Proof.
  intros Hi. unfold Py.getitem.
  replace (i <? 0) with false by (symmetry; apply Z.ltb_ge; lia).
  destruct (_ && _); [|discriminate].
  destruct (l !! Z.to_nat i); [|discriminate].
  intros [= ->]. reflexivity.
Qed.

Lemma getitem_in_range l i :
  0 <= i < Py.len l -> exists a, l !! Z.to_nat i = Some a /\ Py.getitem l i = inr a.
Proof.
  unfold Py.len. intros Hi.
  destruct (lookup_lt_is_Some_2 l (Z.to_nat i)) as [a Ha]; [lia|].
  exists a. split; [assumption|]. apply getitem_nonneg; [lia|assumption].
Qed.
End Indexing.

Section Argmax.
Implicit Types (l : list bool).

Lemma first_true_Some l k :
  Np.first_true l = Some k ->
  l !! k = Some true /\ forall k', (k' < k)%nat -> l !! k' = Some false.
Proof.
  revert k. induction l as [|b l IH]; intros k; cbn; [discriminate|].
  destruct b.
  - intros [= <-]. split; [reflexivity|]. intros k' Hk'. lia.
  - destruct (Np.first_true l) as [k0|]; [|discriminate].
    intros [= <-]. destruct (IH k0 eq_refl) as [Hk0 Hlt].
    split; [exact Hk0|]. intros [|k'] Hk'; [reflexivity|]. cbn. apply Hlt. lia.
Qed.

Lemma first_true_None l :
  Np.first_true l = None <-> Forall (fun b => b = false) l.
Proof.
  induction l as [|b l IH]; cbn.
  - split; [constructor|reflexivity].
  - destruct b.
    + split; [discriminate|]. intros Hf. apply Forall_cons_1 in Hf. destruct Hf; discriminate.
    + rewrite fmap_None, IH. split.
      * intros Hf. constructor; [reflexivity|assumption].
      * intros Hf. apply Forall_cons_1 in Hf. tauto.
Qed.

Lemma first_true_lt l k : Np.first_true l = Some k -> (k < length l)%nat.
Proof. intros Hk. apply first_true_Some in Hk as [Hk _]. eapply lookup_lt_Some, Hk. Qed.

Lemma argmax_nonempty l : l <> [] -> exists i, Np.argmax l = inr i.
Proof. destruct l; [congruence|]. intros _. eexists. reflexivity. Qed.

Lemma argmax_range l i : Np.argmax l = inr i -> 0 <= i < Py.len l.
Proof.
  unfold Np.argmax, Py.len. destruct l as [|b l]; [discriminate|].
  destruct (Np.first_true (b :: l)) as [k|] eqn:E; intros [= <-]; cbn [default].
  - apply first_true_lt in E. lia.
  - rewrite length_cons. lia.
Qed.

Lemma argmax_all_false l :
  l <> [] -> Forall (fun b => b = false) l -> Np.argmax l = inr 0.
Proof.
  intros Hne Hf. apply first_true_None in Hf.
  destruct l; [congruence|]. unfold Np.argmax. now rewrite Hf.
Qed.

(** The candidate index is the first index holding [True], when there is one. *)
Lemma argmax_first l i :
  Np.argmax l = inr i -> l !! Z.to_nat i = Some true ->
  forall k, (k < Z.to_nat i)%nat -> l !! k = Some false.
Proof.
  unfold Np.argmax. destruct l as [|b l]; [discriminate|].
  destruct (Np.first_true (b :: l)) as [k0|] eqn:E; intros [= <-]; cbn [default].
  - rewrite Nat2Z.id. intros _. apply first_true_Some in E. apply E.
  - intros _ k Hk. cbn in Hk. lia.
Qed.

Lemma argmax_finds l i :
  Np.argmax l = inr i -> true ∈ l -> l !! Z.to_nat i = Some true.
Proof.
  unfold Np.argmax. destruct l as [|b l]; [discriminate|].
  destruct (Np.first_true (b :: l)) as [k0|] eqn:E; intros [= <-] Hin; cbn [default].
  - rewrite Nat2Z.id. apply first_true_Some in E. apply E.
  - apply first_true_None in E. rewrite Forall_forall in E.
    specialize (E _ Hin). discriminate.
Qed.
End Argmax.

(** ** The intersection resolver *)
Section Resolver.
Context `{NumLib}.
Import Common.
Implicit Types (p : Photon.t) (bh : Blackhole.t) (acc : SimpleDisk.structure)
  (det : Detector.t) (sol : list PhaseState) (s : PhaseState).

Lemma edge_condition_true acc sol k :
  edge_condition (SimpleDisk.in_edge acc) (SimpleDisk.out_edge acc) sol !! k = Some true
  <-> exists s, sol !! k = Some s /\ crosses_disk acc s.
Proof.
  unfold edge_condition, crosses_disk. rewrite list_lookup_fmap.
  destruct (sol !! k) as [s|]; cbn.
  - split.
    + intros [= E]. exists s. split; [reflexivity|].
      apply andb_true_iff in E as [E E3]. apply andb_true_iff in E as [E1 E2].
      apply Qlt_bool_iff in E1, E3. apply Qgt_bool_iff in E2. tauto.
    + intros (s' & [= <-] & E1 & E2 & E3).
      apply Qlt_bool_iff in E1, E3. apply Qgt_bool_iff in E2.
      now rewrite E1, E2, E3.
  - split; [discriminate|]. intros (s & [=] & _).
Qed.

Lemma eh_condition_true bh sol k :
  eh_condition bh sol !! k = Some true <-> exists s, sol !! k = Some s /\ captured bh s.
Proof.
  unfold eh_condition, captured. rewrite list_lookup_fmap.
  destruct (sol !! k) as [s|]; cbn.
  - split.
    + intros [= E]. exists s. split; [reflexivity|]. now apply Qlt_bool_iff.
    + intros (s' & [= <-] & E). apply Qlt_bool_iff in E. now rewrite E.
  - split; [discriminate|]. intros (s & [=] & _).
Qed.

Lemma edge_condition_length i o sol : length (edge_condition i o sol) = length sol.
Proof. apply length_fmap. Qed.

Lemma eh_condition_length bh sol : length (eh_condition bh sol) = length sol.
Proof. apply length_fmap. Qed.

(** The disk branch of [geo_integ]. *)
Lemma geo_integ_disk p bh acc det sol ie :
  trajectory p bh det = inr sol ->
  Np.argmax (edge_condition (SimpleDisk.in_edge acc) (SimpleDisk.out_edge acc) sol) = inr ie ->
  Py.getitem (edge_condition (SimpleDisk.in_edge acc) (SimpleDisk.out_edge acc) sol) ie
    = inr true ->
  exists s, Py.getitem sol ie = inr s
    /\ crosses_disk acc s
    /\ geo_integ p bh acc det = (Photon.set_fP p s, inr tt).
Proof.
  intros Htraj Hie Hc.
  pose proof (argmax_range _ _ Hie) as Hr.
  assert (Hne : eh_condition bh sol <> []).
  { intros E. apply (f_equal length) in E. rewrite eh_condition_length in E.
    unfold Py.len in Hr. rewrite edge_condition_length in Hr. cbn in E. lia. }
  destruct (argmax_nonempty _ Hne) as [ih Hih].
  apply getitem_nonneg_inv in Hc; [|lia].
  apply edge_condition_true in Hc as (s & Hs & Hcross).
  exists s. split; [apply getitem_nonneg; [lia|exact Hs]|].
  split; [exact Hcross|].
  unfold geo_integ. rewrite Htraj, Hih, Hie. cbn [bind ret].
  rewrite (getitem_nonneg _ ie true); [|lia|apply edge_condition_true; eauto].
  rewrite (getitem_nonneg _ ie s); [|lia|exact Hs].
  reflexivity.
Qed.

(** Every other branch of [geo_integ] leaves the all-zero state assigned
    before the scan. *)
Lemma geo_integ_no_disk p bh acc det sol ie :
  trajectory p bh det = inr sol ->
  Np.argmax (edge_condition (SimpleDisk.in_edge acc) (SimpleDisk.out_edge acc) sol) = inr ie ->
  Py.getitem (edge_condition (SimpleDisk.in_edge acc) (SimpleDisk.out_edge acc) sol) ie
    = inr false ->
  geo_integ p bh acc det = (Photon.set_fP p zero_state, inr tt).
Proof.
  intros Htraj Hie Hc.
  pose proof (argmax_range _ _ Hie) as Hr.
  assert (Hne : eh_condition bh sol <> []).
  { intros E. apply (f_equal length) in E. rewrite eh_condition_length in E.
    unfold Py.len in Hr. rewrite edge_condition_length in Hr. cbn in E. lia. }
  destruct (argmax_nonempty _ Hne) as [ih Hih].
  destruct (getitem_in_range _ _ (argmax_range _ _ Hih)) as (b & _ & Hb).
  unfold geo_integ. rewrite Htraj, Hih, Hie. cbn [bind ret].
  rewrite Hc, Hb. destruct b; reflexivity.
Qed.

Lemma geo_integ_empty p bh acc det :
  trajectory p bh det = inr [] ->
  geo_integ p bh acc det = (Photon.set_fP p zero_state, inl ValueError).
Proof. intros Htraj. unfold geo_integ. rewrite Htraj. reflexivity. Qed.

Lemma no_crossing_all_false acc sol :
  (forall s, s ∈ sol -> ~ crosses_disk acc s) ->
  Forall (fun b => b = false)
    (edge_condition (SimpleDisk.in_edge acc) (SimpleDisk.out_edge acc) sol).
Proof.
  intros Hno. apply Forall_lookup. intros k b Hk.
  destruct b; [|reflexivity].
  apply edge_condition_true in Hk as (s & Hs & Hc).
  exfalso. apply (Hno s); [|exact Hc]. eapply list_elem_of_lookup_2, Hs.
Qed.

Lemma no_capture_all_false bh sol :
  (forall s, s ∈ sol -> ~ captured bh s) ->
  Forall (fun b => b = false) (eh_condition bh sol).
Proof.
  intros Hno. apply Forall_lookup. intros k b Hk.
  destruct b; [|reflexivity].
  apply eh_condition_true in Hk as (s & Hs & Hc).
  exfalso. apply (Hno s); [|exact Hc]. eapply list_elem_of_lookup_2, Hs.
Qed.

(** A trajectory that never crosses the disk: the photon ends with the
    all-zero state, whatever the horizon condition says. *)
Lemma geo_integ_never_crossing p bh acc det sol :
  trajectory p bh det = inr sol ->
  (forall s, s ∈ sol -> ~ crosses_disk acc s) ->
  geo_integ p bh acc det
  = (Photon.set_fP p zero_state,
     match sol with [] => inl ValueError | _ :: _ => inr tt end).
Proof.
  intros Htraj Hno. destruct sol as [|s0 sol'] eqn:Esol.
  - now apply geo_integ_empty.
  - rewrite <- Esol in *. apply no_crossing_all_false in Hno.
    assert (Hne : edge_condition (SimpleDisk.in_edge acc) (SimpleDisk.out_edge acc) sol <> []).
    { rewrite Esol. discriminate. }
    pose proof (argmax_all_false _ Hne Hno) as Hie.
    apply (geo_integ_no_disk p bh acc det sol 0 Htraj Hie).
    destruct (getitem_in_range _ _ (argmax_range _ _ Hie)) as (b & Hb & ->).
    rewrite Forall_lookup in Hno. now rewrite (Hno _ _ Hb).
Qed.

End Resolver.

(** ** The work partitioner *)
Section Partition.
Import Parallel.
Variable det : Detector.t.
Variable W : Z.
Hypothesis Hx : 0 <= Detector.x_pixels det.
Hypothesis Hy : 0 <= Detector.y_pixels det.
Hypothesis HW : 1 <= W.

#[local] Abbreviation total := (total det).
#[local] Abbreviation base := (base det W).
#[local] Abbreviation rest := (rest det W).
#[local] Abbreviation start_idx := (start_idx det W).
#[local] Abbreviation end_idx := (end_idx det W).
#[local] Abbreviation owner := (owner det W).

Lemma index_range_eq r : index_range r W det = inr (start_idx r, end_idx r).
Proof using HW.
  unfold index_range, Py.floordiv, Py.modulo, start_idx, end_idx, rest, base, total.
  replace (W =? 0) with false by (symmetry; apply Z.eqb_neq; lia).
  cbn [bind ret]. destruct (_ <? _); reflexivity.
Qed.

Lemma total_nonneg : 0 <= total.
Proof using Hx Hy. unfold total. nia. Qed.

Lemma total_split : total = W * base + rest /\ 0 <= rest < W /\ 0 <= base.
Proof using Hx Hy HW.
  pose proof total_nonneg. unfold base, rest.
  pose proof (Z.div_mod total W ltac:(lia)).
  pose proof (Z.mod_pos_bound total W ltac:(lia)).
  pose proof (Z.div_pos total W ltac:(lia) ltac:(lia)).
  lia.
Qed.

Lemma range_size r : end_idx r - start_idx r = if r <? rest then base + 1 else base.
Proof. unfold start_idx, end_idx. destruct (r <? rest); lia. Qed.

Lemma start_le_end r : start_idx r <= end_idx r.
Proof using Hx Hy HW.
  pose proof (range_size r). destruct total_split as (_ & _ & ?).
  destruct (r <? rest); lia.
Qed.

Lemma start_first : start_idx 0 = 0.
Proof using Hx Hy HW.
  destruct total_split as (_ & ? & _). unfold start_idx.
  destruct (Z.ltb_spec 0 rest); lia.
Qed.

Lemma end_last : end_idx (W - 1) = total.
Proof using Hx Hy HW.
  destruct total_split as (Ht & ? & _). unfold end_idx.
  destruct (Z.ltb_spec (W - 1) rest); lia.
Qed.

Lemma end_is_next_start r : end_idx r = start_idx (r + 1).
Proof.
  unfold start_idx, end_idx.
  destruct (Z.ltb_spec r rest), (Z.ltb_spec (r + 1) rest); lia.
Qed.

Lemma ranges_ordered r1 r2 : 0 <= r1 -> r1 < r2 -> end_idx r1 <= start_idx r2.
Proof using Hx Hy HW.
  intros H1 H12. destruct total_split as (_ & ? & ?). unfold start_idx, end_idx.
  destruct (Z.ltb_spec r1 rest), (Z.ltb_spec r2 rest); nia.
Qed.

Lemma ranges_disjoint r1 r2 idx :
  0 <= r1 -> 0 <= r2 ->
  start_idx r1 <= idx < end_idx r1 -> start_idx r2 <= idx < end_idx r2 -> r1 = r2.
Proof using Hx Hy HW.
  intros H1 H2 Hi1 Hi2.
  destruct (Z.lt_trichotomy r1 r2) as [Hlt|[Heq|Hgt]]; [|exact Heq|].
  - pose proof (ranges_ordered r1 r2 H1 Hlt). lia.
  - pose proof (ranges_ordered r2 r1 H2 Hgt). lia.
Qed.

Lemma ranges_within r : 0 <= r < W -> 0 <= start_idx r /\ end_idx r <= total.
Proof using Hx Hy HW.
  intros Hr. destruct total_split as (Ht & ? & ?). unfold start_idx, end_idx.
  destruct (Z.ltb_spec r rest); nia.
Qed.

Lemma owner_spec idx :
  0 <= idx < total ->
  0 <= owner idx < W /\ start_idx (owner idx) <= idx < end_idx (owner idx).
Proof using Hx Hy HW.
  intros Hidx. destruct total_split as (Ht & Hrest & Hbase).
  unfold owner. destruct (Z.ltb_spec idx (rest * (base + 1))) as [Hlo|Hhi].
  - pose proof (Z.div_mod idx (base + 1) ltac:(lia)) as Hd.
    pose proof (Z.mod_pos_bound idx (base + 1) ltac:(lia)) as Hm.
    set (q := idx / (base + 1)) in *.
    assert (0 <= q) by (apply Z.div_pos; lia).
    assert (q < rest) by nia.
    unfold start_idx, end_idx.
    replace (q <? rest) with true by (symmetry; apply Z.ltb_lt; lia). lia.
  - assert (0 < base) by nia.
    pose proof (Z.div_mod (idx - rest) base ltac:(lia)) as Hd.
    pose proof (Z.mod_pos_bound (idx - rest) base ltac:(lia)) as Hm.
    set (q := (idx - rest) / base) in *.
    assert (rest <= q) by nia.
    assert (q < W) by nia.
    unfold start_idx, end_idx.
    replace (q <? rest) with false by (symmetry; apply Z.ltb_ge; lia). lia.
Qed.

Lemma ranges_cover idx :
  0 <= idx < total <-> exists r, 0 <= r < W /\ start_idx r <= idx < end_idx r.
Proof using Hx Hy HW.
  split.
  - intros Hidx. exists (owner idx). now apply owner_spec.
  - intros (r & Hr & Hi). pose proof (ranges_within r Hr). lia.
Qed.

Lemma sizes_sum_from (n : nat) :
  Z.of_nat n <= W ->
  foldr Z.add 0 ((fun r => end_idx r - start_idx r) <$> Py.range 0 (Z.of_nat n))
  = start_idx (Z.of_nat n).
Proof using Hx Hy HW.
  unfold Py.range. rewrite Z.sub_0_r. induction n as [|n IH]; intros Hn.
  - cbn. symmetry. apply start_first.
  - rewrite seqZ_S, fmap_app, foldr_app. cbn [fmap list_fmap foldr].
    rewrite Z.add_0_l, Z.add_0_r.
    replace (Z.of_nat (S n)) with (Z.of_nat n + 1) by lia.
    rewrite <- end_is_next_start.
    assert (Hgen : forall l a, foldr Z.add a l = foldr Z.add 0 l + a).
    { induction l; intros; cbn; [lia|]. rewrite IHl. lia. }
    rewrite Hgen, IH by lia. lia.
Qed.

Lemma sizes_sum :
  foldr Z.add 0 ((fun r => end_idx r - start_idx r) <$> Py.range 0 W) = total.
Proof using Hx Hy HW.
  pose proof (sizes_sum_from (Z.to_nat W)) as HS.
  rewrite Z2Nat.id in HS by lia. rewrite HS by lia.
  transitivity (start_idx ((W - 1) + 1)); [f_equal; lia|].
  rewrite <- end_is_next_start. apply end_last.
Qed.

End Partition.

(** ** Arrays given by their entries *)
Section Tabulate.
Context {A : Type}.
Implicit Types (f g : Z -> A) (n i : Z).

Lemma tab_lookup f n (k : nat) :
  Z.of_nat k < n -> (f <$> seqZ 0 n) !! k = Some (f (Z.of_nat k)).
Proof. intros Hk. now rewrite list_lookup_fmap, lookup_seqZ_lt. Qed.

Lemma tab_lookup_Z f n i :
  0 <= i < n -> (f <$> seqZ 0 n) !! Z.to_nat i = Some (f i).
Proof. intros Hi. rewrite tab_lookup by lia. now rewrite Z2Nat.id by lia. Qed.

Lemma tab_length f n : length (f <$> seqZ 0 n) = Z.to_nat n.
Proof. now rewrite length_fmap, length_seqZ. Qed.

Lemma tab_ext f g n :
  (forall i, 0 <= i < n -> f i = g i) -> f <$> seqZ 0 n = g <$> seqZ 0 n.
Proof.
  intros Hfg. apply list_fmap_ext. intros k x Hk.
  apply lookup_seqZ in Hk as [-> Hk]. apply Hfg. lia.
Qed.

Lemma tab_insert f n i (v : A) :
  0 <= i < n ->
  <[Z.to_nat i := v]> (f <$> seqZ 0 n) = (fun k => if k =? i then v else f k) <$> seqZ 0 n.
Proof.
  intros Hi. apply list_eq. intros k.
  destruct (decide (Z.of_nat k < n)) as [Hk|Hk].
  - rewrite (tab_lookup _ n k Hk).
    destruct (decide (k = Z.to_nat i)) as [->|Hne].
    + rewrite list_lookup_insert_eq by (rewrite tab_length; lia).
      rewrite Z2Nat.id, Z.eqb_refl by lia. reflexivity.
    + rewrite list_lookup_insert_ne by congruence.
      rewrite (tab_lookup _ n k Hk).
      replace (Z.of_nat k =? i) with false by (symmetry; apply Z.eqb_neq; lia).
      reflexivity.
  - rewrite !lookup_ge_None_2; [reflexivity| |].
    + rewrite tab_length. lia.
    + rewrite length_insert, tab_length. lia.
Qed.

Lemma tab_replicate (x : A) n : replicate (Z.to_nat n) x = (fun _ => x) <$> seqZ 0 n.
Proof.
  apply list_eq. intros k. destruct (decide (Z.of_nat k < n)) as [Hk|Hk].
  - rewrite lookup_replicate_2 by lia. now rewrite tab_lookup.
  - rewrite !lookup_ge_None_2; [reflexivity| |].
    + rewrite tab_length. lia.
    + rewrite length_replicate. lia.
Qed.

Lemma tab_zip_with (op : A -> A -> A) f g n :
  zip_with op (f <$> seqZ 0 n) (g <$> seqZ 0 n) = (fun k => op (f k) (g k)) <$> seqZ 0 n.
Proof. now rewrite zip_with_fmap_l, zip_with_fmap_r, zip_with_diag. Qed.
End Tabulate.

Section Grid.
Implicit Types (c : Z -> Z -> Q) (n m i j : Z).

Lemma grid_ext c c' n m :
  (forall i j, 0 <= i < n -> 0 <= j < m -> c i j = c' i j) -> grid n m c = grid n m c'.
Proof.
  intros Hc. unfold grid. apply tab_ext. intros i Hi.
  apply tab_ext. intros j Hj. now apply Hc.
Qed.

Lemma grid_lookup c n m i j :
  0 <= i < n -> 0 <= j < m ->
  grid n m c !! Z.to_nat i ≫= (.!! Z.to_nat j) = Some (c i j).
Proof.
  intros Hi Hj. unfold grid. rewrite tab_lookup_Z by lia. cbn.
  now rewrite tab_lookup_Z by lia.
Qed.

Lemma zeros_grid n m : 0 <= n -> 0 <= m -> Np.zeros n m = inr (grid n m (fun _ _ => 0%Q)).
Proof.
  intros Hn Hm. unfold Np.zeros.
  replace (n <? 0) with false by (symmetry; apply Z.ltb_ge; lia).
  replace (m <? 0) with false by (symmetry; apply Z.ltb_ge; lia).
  cbn. unfold ret, grid. now rewrite !tab_replicate.
Qed.


Lemma setitem_nonneg {A} (l : list A) i v :
  0 <= i < Py.len l -> Py.setitem l i v = inr (<[Z.to_nat i := v]> l).
Proof.
  unfold Py.len, Py.setitem. intros Hi.
  replace (i <? 0) with false by (symmetry; apply Z.ltb_ge; lia).
  replace (0 <=? i) with true by (symmetry; apply Z.leb_le; lia).
  replace (i <? Z.of_nat (length l)) with true by (symmetry; apply Z.ltb_lt; lia).
  reflexivity.
Qed.

Lemma setitem2_grid c n m i j v :
  0 <= i < n -> 0 <= j < m ->
  Np.setitem2 (grid n m c) i j v
  = inr (grid n m (fun i' j' => if (i' =? i) && (j' =? j) then v else c i' j')).
Proof.
  intros Hi Hj. unfold Np.setitem2, grid.
  rewrite (getitem_nonneg _ i ((fun j => c i j) <$> seqZ 0 m));
    [|lia|apply (tab_lookup_Z (fun i => (fun j => c i j) <$> seqZ 0 m)); lia].
  cbn [bind]. rewrite setitem_nonneg by (unfold Py.len; rewrite tab_length; lia).
  cbn [bind]. rewrite setitem_nonneg by (unfold Py.len; rewrite tab_length; lia).
  f_equal. rewrite !tab_insert by lia. apply tab_ext. intros i' Hi'.
  destruct (Z.eqb_spec i' i) as [->|Hne]; cbn [andb].
  - apply tab_ext. intros j' Hj'. reflexivity.
  - reflexivity.
Qed.

Lemma add_grid c1 c2 n m :
  Np.add (grid n m c1) (grid n m c2) = grid n m (fun i j => (c1 i j + c2 i j)%Q).
Proof.
  unfold Np.add, grid. rewrite tab_zip_with. apply tab_ext. intros i Hi.
  now rewrite tab_zip_with.
Qed.
End Grid.

(** ** Loops and maps in the error monad *)
Section Monad.
Context {A B C : Type}.

Lemma bind_assoc (m : result A) (f : A -> result B) (g : B -> result C) :
  bind (bind m f) g = bind m (fun a => bind (f a) g).
Proof. destruct m; reflexivity. Qed.



Lemma mapM_app (f : A -> result B) (l1 l2 : list A) :
  mapM f (l1 ++ l2)
  = bind (mapM f l1) (fun ys1 => bind (mapM f l2) (fun ys2 => ret (ys1 ++ ys2))).
Proof.
  induction l1 as [|x l1 IH]; cbn [mapM app].
  - cbn. destruct (mapM f l2); reflexivity.
  - rewrite IH. destruct (f x); cbn; [reflexivity|].
    destruct (mapM f l1); cbn; [reflexivity|].
    destruct (mapM f l2); reflexivity.
Qed.

Lemma mapM_ext (f g : A -> result B) (l : list A) :
  (forall x, x ∈ l -> f x = g x) -> mapM f l = mapM g l.
Proof.
  induction l as [|x l IH]; intros Hfg; [reflexivity|].
  cbn. rewrite Hfg by left. rewrite IH; [reflexivity|].
  intros y Hy. apply Hfg. now right.
Qed.

Lemma mapM_fmap (f : B -> result C) (g : A -> B) (l : list A) :
  mapM f (g <$> l) = mapM (fun x => f (g x)) l.
Proof. induction l as [|x l IH]; [reflexivity|]. cbn. now rewrite IH. Qed.

Lemma mapM_total (f : A -> result B) (l : list A) :
  (forall x, x ∈ l -> exists y, f x = inr y) -> exists ys, mapM f l = inr ys.
Proof.
  induction l as [|x l IH]; intros Hf; [now exists []|].
  destruct (Hf x) as [y Hy]; [left|].
  destruct IH as [ys Hys]; [intros; apply Hf; now right|].
  exists (y :: ys). cbn. now rewrite Hy, Hys.
Qed.

Lemma mapM_inr (f : A -> result B) (l : list A) ys :
  mapM f l = inr ys -> Forall2 (fun x y => f x = inr y) l ys.
Proof.
  revert ys. induction l as [|x l IH]; intros ys; cbn.
  - intros [= <-]. constructor.
  - destruct (f x) as [|y] eqn:Ey; [discriminate|]. cbn.
    destruct (mapM f l) as [|ys']; [discriminate|]. cbn.
    intros [= <-]. constructor; [exact Ey|]. now apply IH.
Qed.

(** Mapping over the results of a successful first map. *)
Lemma mapM_chain (f : A -> result B) (g : B -> result C) (l : list A) ys :
  mapM f l = inr ys -> mapM g ys = mapM (fun x => bind (f x) g) l.
Proof.
  revert ys. induction l as [|x l IH]; intros ys; cbn.
  - now intros [= <-].
  - destruct (f x) as [|y]; [discriminate|]. cbn.
    destruct (mapM f l) as [|ys']; [discriminate|]. cbn.
    intros [= <-]. cbn. now rewrite (IH ys').
Qed.

(** A loop that appends one result per element is a map. *)
Lemma for_append (f : A -> result B) (l : list A) (acc0 : list B) :
  for_ l (fun x acc => bind (f x) (fun y => ret (acc ++ [y]))) acc0
  = bind (mapM f l) (fun ys => ret (acc0 ++ ys)).
Proof.
  revert acc0. induction l as [|x l IH]; intros acc0; cbn.
  - unfold ret. now rewrite app_nil_r.
  - destruct (f x) as [|y]; cbn; [reflexivity|]. rewrite IH.
    destruct (mapM f l); cbn; [reflexivity|]. unfold ret. now rewrite <- app_assoc.
Qed.
End Monad.

(** A loop that appends one block per element is a map over the
    concatenated blocks. *)
Lemma for_append_blocks {A B X} (f : A -> result B) (blocks : X -> list A)
    (l : list X) (acc0 : list B) :
  for_ l (fun x acc => bind (mapM f (blocks x)) (fun ys => ret (acc ++ ys))) acc0
  = bind (mapM f (l ≫= blocks)) (fun ys => ret (acc0 ++ ys)).
Proof.
  revert acc0. induction l as [|x l IH]; intros acc0; cbn.
  - unfold ret. now rewrite app_nil_r.
  - rewrite mapM_app. destruct (mapM f (blocks x)) as [|ys]; cbn; [reflexivity|].
    rewrite IH. destruct (mapM f (l ≫= blocks)); cbn; [reflexivity|].
    unfold ret. now rewrite <- app_assoc.
Qed.

Lemma for_ext {A S} (l : list A) (f g : A -> S -> result S) (s : S) :
  (forall x s, x ∈ l -> f x s = g x s) -> for_ l f s = for_ l g s.
Proof.
  revert s. induction l as [|x l IH]; intros s Hfg; [reflexivity|].
  cbn. rewrite Hfg by left. destruct (g x s); cbn; [reflexivity|].
  apply IH. intros y s' Hy. apply Hfg. now right.
Qed.

Section Ranges.
Lemma range_app a b c : a <= b -> b <= c -> Py.range a b ++ Py.range b c = Py.range a c.
Proof.
  intros Hab Hbc. unfold Py.range.
  replace (c - a) with ((b - a) + (c - b)) by lia.
  rewrite seqZ_app by lia. do 2 f_equal. lia.
Qed.

Lemma range_cons a b : a < b -> Py.range a b = a :: Py.range (a + 1) b.
Proof.
  intros Hab. unfold Py.range. rewrite seqZ_cons by lia. do 2 f_equal; lia.
Qed.

Lemma range_nil a b : b <= a -> Py.range a b = [].
Proof. intros Hab. unfold Py.range. apply seqZ_nil. lia. Qed.

Lemma range_elem a b k : k ∈ Py.range a b <-> a <= k < b.
Proof. unfold Py.range. rewrite elem_of_seqZ. lia. Qed.

Lemma range_shift a b d : Py.range (d + a) (d + b) = Z.add d <$> Py.range a b.
Proof.
  unfold Py.range. rewrite fmap_add_seqZ. f_equal. lia.
Qed.
End Ranges.

(** ** The photon list of a sub-range *)
Section PhotonList.
Variables (bh : Blackhole.t) (det : Detector.t).
#[local] Abbreviation c := (columns det).
Hypothesis Hc : 0 < c.
#[local] Abbreviation span_of := (row_span det).

Lemma divmod_columns a : Py.divmod a c = inr (a / c, a mod c).
Proof using Hc.
  unfold Py.divmod. now replace (c =? 0) with false by (symmetry; apply Z.eqb_neq; lia).
Qed.

Lemma linear_div i j : 0 <= j < c -> (i * c + j) / c = i.
Proof using Hc. intros Hj. symmetry. apply (Z.div_unique _ _ _ j); lia. Qed.

Lemma linear_mod i j : 0 <= j < c -> (i * c + j) mod c = j.
Proof using Hc. intros Hj. symmetry. apply (Z.mod_unique _ _ i); lia. Qed.

Lemma linear_split idx : idx = idx / c * c + idx mod c /\ 0 <= idx mod c < c.
Proof using Hc.
  pose proof (Z.div_mod idx c ltac:(lia)). pose proof (Z.mod_pos_bound idx c Hc). lia.
Qed.

(** The photons of the columns [[a, b)] of row [i]. *)
Lemma row_photons i a b :
  0 <= a -> b <= c ->
  mapM (Common.new_photon bh det i) (Py.range a b)
  = mapM (photon_at bh det) (Py.range (i * c + a) (i * c + b)).
Proof using Hc.
  intros Ha Hb. rewrite range_shift, mapM_fmap. apply mapM_ext.
  intros j Hj. apply range_elem in Hj. unfold photon_at.
  now rewrite linear_div, linear_mod by lia.
Qed.

Lemma create_photons_rows (self : Common.Image.t) :
  0 <= Common.Image.start_beta self -> Common.Image.end_beta self <= c ->
  Common.create_photons self bh det
  = bind (mapM (photon_at bh det)
            (Py.range (Common.Image.start_alpha self) (Common.Image.end_alpha self + 1)
             ≫= span_of (Common.Image.start_alpha self) (Common.Image.start_beta self)
                  (Common.Image.end_alpha self) (Common.Image.end_beta self)))
      (fun ps => ret (Common.Image.set_photons self det ps)).
Proof using Hc.
  intros Hsb Heb. unfold Common.create_photons.
  set (rows := Py.range _ _). set (span := row_span _ _ _ _ _).
  transitivity
    (bind (for_ rows (fun i pl => bind (mapM (photon_at bh det) (span i))
                                    (fun ys => ret (pl ++ ys))) [])
       (fun pl => ret (Common.Image.set_photons self det pl))).
  - f_equal. apply for_ext. intros i pl _.
    rewrite (for_append (Common.new_photon bh det i)).
    unfold span, row_span. rewrite row_photons; [reflexivity| |].
    + destruct (i =? _); lia.
    + destruct (i =? _); fold c; lia.
  - rewrite for_append_blocks, bind_assoc. reflexivity.
Qed.

Lemma full_rows sa sb ea eb (n : nat) k :
  sa < k -> k + Z.of_nat n <= ea ->
  seqZ k (Z.of_nat n) ≫= span_of sa sb ea eb = Py.range (k * c) ((k + Z.of_nat n) * c).
Proof using Hc.
  revert k. induction n as [|n IH]; intros k Hk Hn.
  - cbn. symmetry. apply range_nil. lia.
  - rewrite seqZ_cons by lia. cbn [mbind list_bind].
    replace (Z.pred (Z.of_nat (S n))) with (Z.of_nat n) by lia.
    rewrite IH by lia. unfold row_span.
    replace (k =? sa) with false by (symmetry; apply Z.eqb_neq; lia).
    replace (k =? ea) with false by (symmetry; apply Z.eqb_neq; lia).
    rewrite Z.add_0_r.
    replace (k * c + c) with (Z.succ k * c) by lia.
    rewrite range_app by nia. f_equal. lia.
Qed.

(** The rows visited by [create_photons] are the linear range. *)
Lemma rows_linear s e :
  0 <= s <= e ->
  Py.range (s / c) (e / c + 1) ≫= span_of (s / c) (s mod c) (e / c) (e mod c)
  = Py.range s e.
Proof using Hc.
  intros Hse.
  destruct (linear_split s) as [Hs Hsb], (linear_split e) as [He Heb].
  set (sa := s / c) in *. set (sb := s mod c) in *.
  set (ea := e / c) in *. set (eb := e mod c) in *.
  assert (Hrows : sa <= ea) by (apply Z.div_le_mono; lia).
  destruct (Z.eq_dec sa ea) as [Heq|Hne].
  - rewrite <- Heq. rewrite range_cons, range_nil by lia.
    cbn [mbind list_bind]. rewrite app_nil_r. unfold row_span.
    rewrite Z.eqb_refl. f_equal; lia.
  - rewrite range_cons by lia.
    rewrite <- (range_app (sa + 1) ea (ea + 1)) by lia.
    rewrite (range_cons ea), (range_nil (ea + 1)) by lia.
    cbn [mbind list_bind]. rewrite bind_app. cbn [mbind list_bind]. rewrite app_nil_r.
    unfold Py.range at 1.
    rewrite <- (Z2Nat.id (ea - (sa + 1))) by lia.
    rewrite full_rows by lia. rewrite Z2Nat.id by lia.
    unfold row_span. rewrite !Z.eqb_refl.
    replace (sa =? ea) with false by (symmetry; apply Z.eqb_neq; lia).
    replace (ea =? sa) with false by (symmetry; apply Z.eqb_neq; lia).
    rewrite Z.add_0_r.
    replace (sa * c + sb) with s by lia. replace (ea * c + eb) with e by lia.
    replace (sa + 1 + (ea - (sa + 1))) with ea by lia.
    replace (sa * c + c) with ((sa + 1) * c) by lia.
    rewrite (range_app ((sa + 1) * c)) by nia.
    apply range_app; nia.
Qed.

(** [create_photons] on the sub-range of the linear indices [[s, e)]. *)
Lemma create_photons_linear s e :
  0 <= s <= e ->
  let self := Common.Image.init (s / c) (s mod c) (e / c) (e mod c) in
  Common.create_photons self bh det
  = bind (mapM (photon_at bh det) (Py.range s e))
      (fun ps => ret (Common.Image.set_photons self det ps)).
Proof using Hc.
  intros Hse self. rewrite create_photons_rows.
  - cbn [Common.Image.start_alpha Common.Image.start_beta Common.Image.end_alpha
           Common.Image.end_beta self Common.Image.init].
    now rewrite rows_linear.
  - cbn. apply linear_split.
  - cbn. pose proof (linear_split e). lia.
Qed.
End PhotonList.

(** ** The image assembler *)
Section Assembly.
Context `{NumLib}.
Variables (bh : Blackhole.t) (det : Detector.t) (acc : SimpleDisk.structure).
#[local] Abbreviation c := (columns det).
Hypothesis Hwf : well_formed det.
Hypothesis Hc : 0 < c.

Import Common.
#[local] Abbreviation store := (store bh det acc).

Lemma new_photon_inr i j p :
  new_photon bh det i j = inr p ->
  Photon.i p = Some i /\ Photon.j p = Some j /\ Photon.fP p = None.
Proof.
  unfold new_photon.
  destruct (Py.getitem (Detector.alphaRange det) i) as [|a]; [discriminate|].
  destruct (Py.getitem (Detector.betaRange det) j) as [|b]; [discriminate|].
  cbn [bind]. destruct (Detector.photon_coords det a b) as [xin kin].
  cbn. intros [= <-]. cbn. auto.
Qed.

Lemma new_photon_total i j :
  0 <= i < Py.len (Detector.alphaRange det) ->
  0 <= j < Py.len (Detector.betaRange det) ->
  exists p, new_photon bh det i j = inr p.
Proof.
  intros Hi Hj. unfold new_photon.
  destruct (getitem_in_range _ _ Hi) as (a & _ & ->).
  destruct (getitem_in_range _ _ Hj) as (b & _ & ->).
  cbn [bind]. destruct (Detector.photon_coords det a b) as [xin kin].
  cbn. eauto.
Qed.

Lemma index_in_grid idx :
  0 <= idx < total det ->
  0 <= idx / c < Detector.x_pixels det /\ 0 <= idx mod c < Detector.y_pixels det.
Proof using Hwf Hc.
  destruct Hwf as [Hx Hy]. unfold total. fold c in Hy. rewrite Hy. intros Hidx.
  pose proof (linear_split det Hc idx) as [Hs Hm].
  split; [|exact Hm]. split.
  - apply Z.div_pos; lia.
  - apply Z.div_lt_upper_bound; lia.
Qed.

Lemma photon_at_total idx :
  0 <= idx < total det -> exists p, photon_at bh det idx = inr p.
Proof using Hwf Hc.
  intros Hidx. destruct (index_in_grid idx Hidx) as [Hi Hj].
  destruct Hwf as [Hx Hy]. apply new_photon_total; [rewrite <- Hx|rewrite <- Hy]; assumption.
Qed.

Lemma photons_total s e :
  0 <= s -> e <= total det -> exists ps, mapM (photon_at bh det) (Py.range s e) = inr ps.
Proof using Hwf Hc.
  intros Hs He. apply mapM_total. intros idx Hidx. apply range_elem in Hidx.
  apply photon_at_total. lia.
Qed.

(** [geo_integ] only assigns [fP]. *)
Lemma geo_integ_frame p :
  Photon.i (fst (geo_integ p bh acc det)) = Photon.i p
  /\ Photon.j (fst (geo_integ p bh acc det)) = Photon.j p.
Proof.
  unfold geo_integ. destruct (trajectory p bh det) as [|sol]; [easy|].
  destruct (bind _ _) as [|[ih ie]]; [easy|].
  destruct (Py.getitem _ ie) as [|[]]; [easy| |].
  - destruct (Py.getitem sol ie); easy.
  - destruct (Py.getitem _ ih) as [|[]]; easy.
Qed.

Lemma trace_photon_store p traced image_data :
  bind (trace_photon bh acc det p (traced, image_data))
       (fun st => ret (snd st))
  = store p image_data.
Proof.
  unfold trace_photon, store, photon_flux.
  destruct (geo_integ_frame p) as [Hi Hj].
  destruct (geo_integ p bh acc det) as [p' [e|[]]]; [reflexivity|].
  cbn [fst] in Hi, Hj. rewrite Hi, Hj. cbn [bind].
  destruct (not_none (Photon.fP p')) as [|fP]; [reflexivity|]. cbn [bind].
  destruct (SimpleDisk.energy_flux acc (ps_r fP)) as [|flux]; [reflexivity|]. cbn [bind].
  destruct (not_none (Photon.i p)) as [|i]; [reflexivity|]. cbn [bind].
  destruct (not_none (Photon.j p)) as [|j]; [reflexivity|]. cbn [bind].
  destruct (Np.setitem2 image_data i j flux); reflexivity.
Qed.

Lemma trace_loop_store ps traced image_data :
  bind (for_ ps (trace_photon bh acc det) (traced, image_data)) (fun st => ret (snd st))
  = for_ ps store image_data.
Proof.
  revert traced image_data. induction ps as [|p ps IH]; intros traced image_data.
  - reflexivity.
  - cbn [for_]. rewrite bind_assoc.
    pose proof (trace_photon_store p traced image_data) as Hst.
    destruct (trace_photon bh acc det p (traced, image_data)) as [e|[traced' image']].
    + cbn [bind] in *. now rewrite <- Hst.
    + cbn [bind ret snd] in *. rewrite <- Hst. cbn [bind]. apply IH.
Qed.

#[local] Abbreviation tbl := (table bh det acc).

Lemma table_empty s :
  tbl s s = grid (Detector.x_pixels det) (Detector.y_pixels det) (fun _ _ => 0%Q).
Proof.
  apply grid_ext. intros i j _ _. unfold cell.
  destruct (Z.leb_spec s (i * c + j)), (Z.ltb_spec (i * c + j) s); cbn; try reflexivity. lia.
Qed.

Lemma store_step s k p v :
  s <= k -> 0 <= k < total det ->
  photon_at bh det k = inr p -> photon_flux bh det acc p = inr v ->
  store p (tbl s k) = inr (tbl s (k + 1)).
Proof using Hwf Hc.
  intros Hsk Hk Hp Hv.
  destruct (new_photon_inr _ _ _ Hp) as (Hi & Hj & _).
  destruct (index_in_grid k Hk) as [Hki Hkj].
  unfold store. rewrite Hv, Hi, Hj. cbn [bind not_none ret].
  unfold table. rewrite setitem2_grid by assumption. f_equal.
  apply grid_ext. intros i j Hi' Hj'.
  assert (Hj'' : 0 <= j < c) by (destruct Hwf as [_ Hy]; fold c in Hy; lia).
  pose proof (linear_split det Hc k) as [Hks _].
  unfold cell.
  destruct (Z.eqb_spec i (k / c)) as [Ei|Ei], (Z.eqb_spec j (k mod c)) as [Ej|Ej];
    cbn [andb].
  - subst i j. rewrite <- Hks.
    replace (s <=? k) with true by (symmetry; apply Z.leb_le; lia).
    replace (k <? k + 1) with true by (symmetry; apply Z.ltb_lt; lia).
    cbn [andb]. unfold flux_of. rewrite Hp. cbn [bind]. now rewrite Hv.
  - assert (i * c + j <> k) by (subst i; lia).
    destruct (Z.leb_spec s (i * c + j)); cbn [andb]; [|reflexivity].
    destruct (Z.ltb_spec (i * c + j) k), (Z.ltb_spec (i * c + j) (k + 1));
      try reflexivity; lia.
  - assert (i * c + j <> k).
    { intros E. apply Ei. rewrite <- E. symmetry. apply (linear_div det Hc). lia. }
    destruct (Z.leb_spec s (i * c + j)); cbn [andb]; [|reflexivity].
    destruct (Z.ltb_spec (i * c + j) k), (Z.ltb_spec (i * c + j) (k + 1));
      try reflexivity; lia.
  - assert (i * c + j <> k).
    { intros E. apply Ei. rewrite <- E. symmetry. apply (linear_div det Hc). lia. }
    destruct (Z.leb_spec s (i * c + j)); cbn [andb]; [|reflexivity].
    destruct (Z.ltb_spec (i * c + j) k), (Z.ltb_spec (i * c + j) (k + 1));
      try reflexivity; lia.
Qed.

Lemma store_loop s (n : nat) : forall k ps,
  s <= k -> 0 <= k -> k + Z.of_nat n <= total det ->
  mapM (photon_at bh det) (seqZ k (Z.of_nat n)) = inr ps ->
  for_ ps store (tbl s k)
  = bind (mapM (photon_flux bh det acc) ps) (fun _ => ret (tbl s (k + Z.of_nat n))).
Proof using Hwf Hc.
  induction n as [|n IH]; intros k ps Hsk Hk Hn.
  - cbn. intros [= <-]. cbn. now rewrite Z.add_0_r.
  - rewrite seqZ_cons by lia.
    replace (Z.pred (Z.of_nat (S n))) with (Z.of_nat n) by lia.
    cbn [mapM]. destruct (photon_at bh det k) as [|p] eqn:Hp; [discriminate|].
    cbn [bind]. destruct (mapM _ (seqZ _ _)) as [|ps'] eqn:Hps'; [discriminate|].
    cbn [bind ret]. intros [= <-]. cbn [for_ mapM].
    destruct (photon_flux bh det acc p) as [e|v] eqn:Hv.
    + unfold store. now rewrite Hv.
    + rewrite (store_step s k p v) by (try assumption; lia). cbn [bind].
      replace (k + 1) with (Z.succ k) by lia.
      rewrite (IH (Z.succ k) ps') by (try assumption; lia).
      destruct (mapM _ ps'); cbn; [reflexivity|].
      unfold ret. do 2 f_equal. lia.
Qed.

(** [create_photons] then [create_image] on the linear range [[s, e)]. *)
Lemma image_assemble s e :
  0 <= s <= e -> e <= total det ->
  (let image := Image.init (s / c) (s mod c) (e / c) (e mod c) in
   image <- create_photons image bh det ;;
   image <- create_image image bh acc ;;
   attr (Image.image_data image))
  = assemble bh det acc s e.
Proof using Hwf Hc.
  intros Hse He. cbn zeta. rewrite (create_photons_linear bh det Hc) by assumption.
  destruct (photons_total s e) as [ps Hps]; [lia|lia|].
  rewrite Hps. cbn [bind ret]. unfold create_image.
  cbn [Image.detector Image.set_photons attr bind ret Image.photon_list].
  destruct Hwf as [Hx Hy].
  rewrite zeros_grid by (rewrite ?Hx, ?Hy; unfold Py.len; lia).
  cbn [bind]. rewrite <- (table_empty s). rewrite bind_assoc.
  cbn [bind ret Image.image_data Image.set_image attr].
  rewrite trace_loop_store. unfold Py.range in Hps.
  rewrite <- (Z2Nat.id (e - s)) in Hps by lia.
  rewrite (store_loop s (Z.to_nat (e - s)) s ps) by (try assumption; lia).
  rewrite (mapM_chain _ _ _ _ Hps). rewrite Z2Nat.id by lia.
  unfold assemble, Py.range. replace (s + (e - s)) with e by lia. reflexivity.
Qed.

End Assembly.

(** ** The result reducer *)
Section Reduction.
Context `{NumLib}.
Variables (bh : Blackhole.t) (det : Detector.t) (acc : SimpleDisk.structure).
Hypothesis Hwf : well_formed det.
#[local] Abbreviation c := (columns det).
#[local] Abbreviation tbl := (table bh det acc).

Lemma Qplus_0_r_eq (q : Q) : (q + 0)%Q = q.
Proof.
  destruct q as [n d]. unfold Qplus. cbn [Qnum Qden].
  now rewrite Z.mul_1_r, Z.add_0_r, Pos.mul_1_r.
Qed.

Lemma Qplus_0_l_eq (q : Q) : (0 + q)%Q = q.
Proof.
  destruct q as [n d]. unfold Qplus. cbn [Qnum Qden].
  now rewrite Z.mul_1_r.
Qed.

Lemma cell_add a b e idx :
  a <= b -> b <= e ->
  (cell bh det acc a b idx + cell bh det acc b e idx)%Q = cell bh det acc a e idx.
Proof.
  intros Hab Hbe. unfold cell.
  destruct (Z.leb_spec a idx), (Z.ltb_spec idx b), (Z.leb_spec b idx), (Z.ltb_spec idx e);
    cbn [andb]; try lia;
    first [apply Qplus_0_r_eq | apply Qplus_0_l_eq].
Qed.

Lemma add_tables a b e : a <= b -> b <= e -> Np.add (tbl a b) (tbl b e) = tbl a e.
Proof.
  intros Hab Hbe. unfold table. rewrite add_grid. apply grid_ext.
  intros i j _ _. now apply cell_add.
Qed.

Lemma grid_dims_nonneg : 0 <= Detector.x_pixels det /\ 0 <= Detector.y_pixels det.
Proof using Hwf. destruct Hwf as [-> ->]. unfold Py.len. lia. Qed.

Section Workers.
Variable W : Z.
Hypothesis HW : 1 <= W.
#[local] Abbreviation first := (start_idx det W).
#[local] Abbreviation last := (end_idx det W).

Lemma worker_assemble r :
  0 < c -> 0 <= r < W ->
  Driver.worker bh det acc r W = assemble bh det acc (first r) (last r).
Proof using Hwf HW.
  intros Hc Hr. destruct grid_dims_nonneg as [Hx Hy].
  unfold Driver.worker, Parallel.distribute.
  rewrite (index_range_eq det W HW). cbn [bind].
  fold c. rewrite !(divmod_columns det Hc). cbn [bind ret].
  apply (image_assemble bh det acc Hwf Hc).
  - pose proof (ranges_within det W Hx Hy HW r Hr).
    pose proof (start_le_end det W Hx Hy HW r). lia.
  - apply (ranges_within det W Hx Hy HW r Hr).
Qed.

Lemma worker_no_columns r :
  c = 0 -> Driver.worker bh det acc r W = inl ZeroDivisionError.
Proof using HW.
  intros Hc. unfold Driver.worker, Parallel.distribute.
  rewrite (index_range_eq det W HW). cbn [bind].
  fold c. rewrite Hc. reflexivity.
Qed.

(** The first [n] workers together evaluate the pixels below the first
    index of worker [n], in order. *)
Lemma assemble_chain (n : nat) :
  Z.of_nat n <= W ->
  mapM (fun r => assemble bh det acc (first r) (last r)) (Py.range 0 (Z.of_nat n))
  = bind (mapM (flux_of bh det acc) (Py.range 0 (first (Z.of_nat n))))
      (fun _ => ret ((fun r => tbl (first r) (last r)) <$> Py.range 0 (Z.of_nat n))).
Proof using Hwf HW.
  destruct grid_dims_nonneg as [Hx Hy].
  induction n as [|n IH]; intros Hn.
  - change (Z.of_nat 0) with 0. rewrite (start_first det W Hx Hy HW). reflexivity.
  - unfold Py.range at 1 3. rewrite Z.sub_0_r, seqZ_S, mapM_app, fmap_app.
    replace (seqZ 0 (Z.of_nat n)) with (Py.range 0 (Z.of_nat n))
      by (unfold Py.range; now rewrite Z.sub_0_r).
    rewrite IH by lia. rewrite Z.add_0_l.
    replace (Z.of_nat (S n)) with (Z.of_nat n + 1) by lia.
    rewrite <- (end_is_next_start det W).
    pose proof (ranges_within det W Hx Hy HW (Z.of_nat n) ltac:(lia)).
    pose proof (start_le_end det W Hx Hy HW (Z.of_nat n)).
    rewrite <- (range_app 0 (first (Z.of_nat n)) (last (Z.of_nat n))) by lia.
    rewrite mapM_app. cbn [mapM]. unfold assemble at 1.
    destruct (mapM _ (Py.range 0 (first (Z.of_nat n)))); cbn [bind ret]; [reflexivity|].
    destruct (mapM _ (Py.range (first (Z.of_nat n)) _)); reflexivity.
Qed.

Lemma sum_tables (n : nat) : forall k,
  0 <= k -> k + Z.of_nat n <= W ->
  fold_left Np.add ((fun r => tbl (first r) (last r)) <$> seqZ k (Z.of_nat n))
            (tbl 0 (first k))
  = tbl 0 (first (k + Z.of_nat n)).
Proof using Hwf HW.
  destruct grid_dims_nonneg as [Hx Hy].
  induction n as [|n IH]; intros k Hk Hn.
  - cbn. now rewrite Z.add_0_r.
  - rewrite seqZ_cons by lia.
    replace (Z.pred (Z.of_nat (S n))) with (Z.of_nat n) by lia.
    cbn [fmap list_fmap fold_left].
    pose proof (ranges_within det W Hx Hy HW k ltac:(lia)).
    pose proof (start_le_end det W Hx Hy HW k).
    rewrite add_tables by lia.
    rewrite (end_is_next_start det W). replace (k + 1) with (Z.succ k) by lia.
    rewrite IH by lia. f_equal. f_equal. lia.
Qed.

Lemma render_assemble :
  0 < c -> Driver.render bh det acc W = assemble bh det acc 0 (total det).
Proof using Hwf HW.
  intros Hc. destruct grid_dims_nonneg as [Hx Hy]. unfold Driver.render.
  rewrite (mapM_ext _ (fun r => assemble bh det acc (first r) (last r))).
  2:{ intros r Hr. apply range_elem in Hr. now apply worker_assemble. }
  pose proof (assemble_chain (Z.to_nat W)) as Hchain.
  rewrite Z2Nat.id in Hchain by lia. rewrite Hchain by lia. clear Hchain.
  assert (HWt : first W = total det).
  { transitivity (first ((W - 1) + 1)); [f_equal; lia|].
    rewrite <- (end_is_next_start det W). apply (end_last det W Hx Hy HW). }
  rewrite HWt. unfold assemble.
  destruct (mapM _ (Py.range 0 (total det))); [reflexivity|]. cbn [bind ret].
  rewrite range_cons by lia. cbn [fmap list_fmap].
  rewrite (getitem_nonneg _ 0 (tbl (first 0) (last 0))) by (reflexivity || lia).
  cbn [bind]. unfold Parallel.gather_and_process_data.
  rewrite zeros_grid by assumption.
  cbn [Z.eqb bind Parallel.comm_gather not_none ret Np.sum_axis0].
  f_equal. rewrite (start_first det W Hx Hy HW).
  rewrite (end_is_next_start det W). unfold Py.range.
  rewrite <- (Z2Nat.id (W - (0 + 1))) by lia.
  rewrite (sum_tables _ (0 + 1)) by lia.
  rewrite Z2Nat.id by lia. rewrite <- HWt. do 2 f_equal. lia.
Qed.

End Workers.

Lemma render_any_workers W :
  1 <= W -> Driver.render bh det acc W = Driver.render bh det acc 1.
Proof using Hwf.
  intros HW. destruct (Z.eq_dec c 0) as [Hc0|Hc0].
  - unfold Driver.render.
    rewrite (range_cons 0 W), (range_cons 0 1) by lia. cbn [mapM].
    now rewrite !worker_no_columns by (assumption || lia).
  - assert (Hc : 0 < c) by (unfold columns, Py.len in *; lia).
    now rewrite (render_assemble W HW Hc), (render_assemble 1 ltac:(lia) Hc).
Qed.

End Reduction.

(** * The claims *)

Section ResolverClaims.
Context `{NumLib}.
Import Common.

Lemma all_false_no_crossing acc sol :
  forallb negb (edge_condition (SimpleDisk.in_edge acc) (SimpleDisk.out_edge acc) sol) = true ->
  forall s, s ∈ sol -> ~ crosses_disk acc s.
Proof.
  intros Hall s Hs Hc. apply list_elem_of_lookup in Hs as [k Hk].
  assert (Ht : edge_condition (SimpleDisk.in_edge acc) (SimpleDisk.out_edge acc) sol !! k
               = Some true) by (apply edge_condition_true; eauto).
  rewrite forallb_forall in Hall. specialize (Hall true).
  rewrite <- list_elem_of_In in Hall. discriminate Hall.
  eapply list_elem_of_lookup_2, Ht.
Qed.

Lemma all_false_no_capture bh sol :
  forallb negb (eh_condition bh sol) = true ->
  forall s, s ∈ sol -> ~ captured bh s.
Proof.
  intros Hall s Hs Hc. apply list_elem_of_lookup in Hs as [k Hk].
  assert (Ht : eh_condition bh sol !! k = Some true) by (apply eh_condition_true; eauto).
  rewrite forallb_forall in Hall. specialize (Hall true).
  rewrite <- list_elem_of_In in Hall. discriminate Hall.
  eapply list_elem_of_lookup_2, Ht.
Qed.

(** C1.  When the disk-crossing condition and the horizon condition both
    hold at their candidate indices (the first-true indices [ie] and [ih]
    found by [argmax], in whatever order), [geo_integ] returns normally and
    the terminal state of the photon is the trajectory sample at the
    disk-crossing index [ie]: the disk branch is taken, not the all-zero
    horizon branch.  That sample satisfies the disk-crossing condition, no
    earlier sample does, and it differs from the all-zero state whenever the
    inner edge is not negative. *)
Theorem disk_crossing_takes_priority p bh acc det sol ie ih :
  trajectory p bh det = inr sol ->
  Np.argmax (edge_condition (SimpleDisk.in_edge acc) (SimpleDisk.out_edge acc) sol) = inr ie ->
  Np.argmax (eh_condition bh sol) = inr ih ->
  Py.getitem (edge_condition (SimpleDisk.in_edge acc) (SimpleDisk.out_edge acc) sol) ie
    = inr true ->
  Py.getitem (eh_condition bh sol) ih = inr true ->
  exists s,
    Py.getitem sol ie = inr s
    /\ geo_integ p bh acc det = (Photon.set_fP p s, inr tt)
    /\ Photon.fP (fst (geo_integ p bh acc det)) = Some s
    /\ crosses_disk acc s
    /\ (forall k s', (k < Z.to_nat ie)%nat -> sol !! k = Some s' -> ~ crosses_disk acc s')
    /\ ((0 <= SimpleDisk.in_edge acc)%Q -> s <> zero_state).
Proof.
  intros Htraj Hie _ Hedge _.
  destruct (geo_integ_disk p bh acc det sol ie Htraj Hie Hedge) as (s & Hs & Hc & Hg).
  exists s. rewrite Hg. split; [exact Hs|]. split; [reflexivity|].
  split; [reflexivity|]. split; [exact Hc|]. split.
  - intros k s' Hk Hs' Hc'.
    pose proof (argmax_range _ _ Hie) as Hr.
    apply getitem_nonneg_inv in Hedge; [|lia].
    pose proof (argmax_first _ _ Hie Hedge k Hk) as Hfalse.
    assert (Htrue : edge_condition (SimpleDisk.in_edge acc) (SimpleDisk.out_edge acc) sol !! k
                    = Some true) by (apply edge_condition_true; eauto).
    rewrite Hfalse in Htrue. discriminate.
  - intros Hin ->. destruct Hc as (_ & Hlt & _). cbn in Hlt. lra.
Qed.

(** C4.  A trajectory on which no sample satisfies the disk-crossing
    condition and no sample satisfies the horizon condition leaves the
    photon with the all-zero terminal state; when the trajectory has at
    least one sample [geo_integ] returns normally and both first-true scans
    yield the index 0 of the first element; and the flux sampled at the
    terminal radius 0 is exactly 0 for an extent with
    0 < inner_edge < outer_edge. *)
Theorem escaping_ray_zero_state p bh acc det sol :
  trajectory p bh det = inr sol ->
  (forall s, s ∈ sol -> ~ crosses_disk acc s) ->
  (forall s, s ∈ sol -> ~ captured bh s) ->
  Photon.fP (fst (geo_integ p bh acc det)) = Some zero_state
  /\ (sol <> [] ->
      snd (geo_integ p bh acc det) = inr tt
      /\ Np.argmax (edge_condition (SimpleDisk.in_edge acc) (SimpleDisk.out_edge acc) sol)
         = inr 0
      /\ Np.argmax (eh_condition bh sol) = inr 0)
  /\ ((0 < SimpleDisk.in_edge acc)%Q ->
      (SimpleDisk.in_edge acc < SimpleDisk.out_edge acc)%Q ->
      SimpleDisk.energy_flux acc (ps_r zero_state) = inr 0%Q).
Proof.
  intros Htraj Hnd Hnc.
  rewrite (geo_integ_never_crossing p bh acc det sol Htraj Hnd). cbn [fst snd].
  split; [reflexivity|]. split.
  - intros Hne. destruct sol as [|s0 sol']; [congruence|].
    split; [reflexivity|]. split.
    + apply argmax_all_false; [discriminate|]. now apply no_crossing_all_false.
    + apply argmax_all_false; [discriminate|]. now apply no_capture_all_false.
  - intros H0 Hio. apply energy_flux_outside; cbn; lra.
Qed.

(** C5 (as amended).  When the disk-crossing condition does not hold at its
    candidate index and some sample satisfies [r < EH + 1e-5], [geo_integ]
    returns normally with the all-zero terminal state (not the capturing
    sample): the horizon condition holds at its own candidate index.  The
    captured ray then renders as [energy_flux(0)], the flux at radius 0,
    which is zero flux for every extent with 0 <= inner_edge and distinct
    edges. *)
Theorem captured_ray_zero_state p bh acc det sol ie :
  trajectory p bh det = inr sol ->
  Np.argmax (edge_condition (SimpleDisk.in_edge acc) (SimpleDisk.out_edge acc) sol) = inr ie ->
  Py.getitem (edge_condition (SimpleDisk.in_edge acc) (SimpleDisk.out_edge acc) sol) ie
    = inr false ->
  (exists s, s ∈ sol /\ captured bh s) ->
  geo_integ p bh acc det = (Photon.set_fP p zero_state, inr tt)
  /\ Photon.fP (fst (geo_integ p bh acc det)) = Some zero_state
  /\ (exists ih, Np.argmax (eh_condition bh sol) = inr ih
                 /\ Py.getitem (eh_condition bh sol) ih = inr true)
  /\ photon_flux bh det acc p = SimpleDisk.energy_flux acc 0%Q
  /\ ((0 <= SimpleDisk.in_edge acc)%Q ->
      ~ (SimpleDisk.in_edge acc == SimpleDisk.out_edge acc)%Q ->
      photon_flux bh det acc p = inr 0%Q).
Proof.
  intros Htraj Hie Hedge (s & Hs & Hcap).
  pose proof (geo_integ_no_disk p bh acc det sol ie Htraj Hie Hedge) as Hg.
  assert (Hflux : photon_flux bh det acc p = SimpleDisk.energy_flux acc 0%Q).
  { unfold photon_flux. rewrite Hg. reflexivity. }
  rewrite Hg. split; [reflexivity|]. split; [reflexivity|]. split; [|split].
  - apply list_elem_of_lookup in Hs as [k Hk].
    assert (Ht : eh_condition bh sol !! k = Some true) by (apply eh_condition_true; eauto).
    assert (Hne : eh_condition bh sol <> []) by (intros E; rewrite E in Ht; discriminate).
    destruct (argmax_nonempty _ Hne) as [ih Hih]. exists ih. split; [exact Hih|].
    pose proof (argmax_range _ _ Hih).
    apply getitem_nonneg; [lia|]. apply (argmax_finds _ _ Hih).
    eapply list_elem_of_lookup_2, Ht.
  - exact Hflux.
  - intros H0 Hne. rewrite Hflux. apply energy_flux_outside; [exact Hne|lra].
Qed.

(** C9 (as amended).  A photon is constructed with no terminal state
    ([fP] is [None]), also when it comes out of [create_photons]; the
    all-zero state of a photon whose trajectory crosses neither the disk nor
    the horizon is the one that [geo_integ] assigns before it scans the
    trajectory. *)
Theorem terminal_state_assigned_by_geo_integ p bh acc det sol :
  Photon.fP p = None ->
  trajectory p bh det = inr sol ->
  (forall s, s ∈ sol -> ~ crosses_disk acc s) ->
  (forall s, s ∈ sol -> ~ captured bh s) ->
  (forall alpha beta, Photon.fP (Photon.init alpha beta) = None)
  /\ (forall i j q, new_photon bh det i j = inr q -> Photon.fP q = None)
  /\ Photon.fP (fst (geo_integ p bh acc det)) = Some zero_state.
Proof.
  intros _ Htraj Hnd _. split; [reflexivity|]. split.
  - intros i j q Hq. now apply new_photon_inr in Hq.
  - now rewrite (geo_integ_never_crossing p bh acc det sol Htraj Hnd).
Qed.

End ResolverClaims.

Section InitialConditions.
Import Common.

(** C6.  For a position [x], a contravariant momentum [k] and a spacetime
    whose [metric(x)] returns (g_tt, g_rr, g_thth, g_phph, g_tph),
    [initCond] returns the 8-tuple whose first four components are the
    coordinates of [x] and whose last four are
    k_t = g_tt k^t + g_tph k^phi, k_r = g_rr k^r, k_th = g_thth k^th,
    k_phi = g_phph k^phi + g_tph k^t. *)
Theorem initCond_lowers_momentum (x k : Vec4) (bh : Blackhole.t)
    (g_tt g_rr g_thth g_phph g_tph : Q) :
  Blackhole.metric bh x = (g_tt, g_rr, g_thth, g_phph, g_tph) ->
  initCond x k bh
  = mkPhase (v0 x) (v1 x) (v2 x) (v3 x)
            (g_tt * v0 k + g_tph * v3 k)%Q
            (g_rr * v1 k)%Q
            (g_thth * v2 k)%Q
            (g_phph * v3 k + g_tph * v0 k)%Q.
Proof. intros Hg. unfold initCond. now rewrite Hg. Qed.

End InitialConditions.

Section FluxClaims.
Local Open Scope Q_scope.
Import SimpleDisk.

Lemma energy_flux_equal_edges acc r :
  in_edge acc == out_edge acc -> energy_flux acc r = inl ZeroDivisionError.
Proof.
  intros Heq. unfold energy_flux. rewrite truediv_zero by lra. reflexivity.
Qed.

Lemma energy_flux_range acc r v :
  in_edge acc < out_edge acc -> energy_flux acc r = inr v -> 0 <= v /\ v < 1.
Proof.
  intros Hio Hv.
  destruct (Qlt_le_dec (in_edge acc) r) as [H1|H1];
    [destruct (Qlt_le_dec r (out_edge acc)) as [H2|H2]|].
  - destruct (energy_flux_inside acc r H1 H2) as (v' & Hv' & _ & Hp & Hl).
    rewrite Hv in Hv'. injection Hv' as ->. split; [lra|exact Hl].
  - rewrite energy_flux_outside in Hv by lra. injection Hv as <-. lra.
  - rewrite energy_flux_outside in Hv by lra. injection Hv as <-. lra.
Qed.

(** C7 (as amended).  For an accretion structure whose two edges differ,
    [energy_flux(r)] returns exactly 0 when [r] equals [in_edge] or
    [out_edge], and for every [r] outside the open interval
    (in_edge, out_edge); a value different from 0 is returned only for [r]
    strictly between the edges, where it is the linear profile. *)
Theorem energy_flux_zero_outside_open_interval acc r :
  ~ in_edge acc == out_edge acc ->
  (r == in_edge acc \/ r == out_edge acc \/ ~ (in_edge acc < r /\ r < out_edge acc) ->
   energy_flux acc r = inr 0)
  /\ (in_edge acc < r /\ r < out_edge acc ->
      exists v, energy_flux acc r = inr v
                /\ v == (r - out_edge acc) / (in_edge acc - out_edge acc)
                /\ ~ v == 0)
  /\ (forall v, energy_flux acc r = inr v -> ~ v == 0 ->
      in_edge acc < r /\ r < out_edge acc).
Proof.
  intros Hne. split; [|split].
  - intros Hr. apply energy_flux_outside; [exact Hne|]. lra.
  - intros [H1 H2]. destruct (energy_flux_inside acc r H1 H2) as (v & Hv & Heq & Hp & _).
    exists v. split; [exact Hv|]. split; [exact Heq|]. lra.
  - intros v Hv Hnz.
    destruct (Qlt_le_dec (in_edge acc) r) as [H1|H1];
      [destruct (Qlt_le_dec r (out_edge acc)) as [H2|H2]|].
    + split; assumption.
    + rewrite energy_flux_outside in Hv by (assumption || lra).
      injection Hv as <-. exfalso. apply Hnz. reflexivity.
    + rewrite energy_flux_outside in Hv by (assumption || lra).
      injection Hv as <-. exfalso. apply Hnz. reflexivity.
Qed.

End FluxClaims.

Section ConfigurationClaims.
Context `{NumLib}.
Local Open Scope Q_scope.
Import Common.

Lemma geo_integ_returns_state p bh acc det :
  snd (geo_integ p bh acc det) = inr tt ->
  exists s, Photon.fP (fst (geo_integ p bh acc det)) = Some s.
Proof.
  unfold geo_integ. destruct (trajectory p bh det) as [|sol]; [discriminate|].
  destruct (bind _ _) as [|[ih ie]]; [discriminate|].
  destruct (Py.getitem _ ie) as [|[]]; [discriminate| |].
  - destruct (Py.getitem sol ie); [discriminate|]. cbn. eauto.
  - destruct (Py.getitem _ ih) as [|[]]; [discriminate| |]; cbn; eauto.
Qed.

(** C8 (as amended).  A disk configuration with inner_edge >= outer_edge is
    not rejected: [structure.__init__] stores the two radii as they are.
    Rendering proceeds into the per-pixel flux evaluation, where
    inner_edge > outer_edge gives the flux 0 at every radius, and
    inner_edge == outer_edge makes every call of [energy_flux] raise
    [ZeroDivisionError], so that the iteration of [create_image] on a photon
    that was traced normally fails at its flux evaluation. *)
Theorem malformed_extent_not_rejected {BH : Type} (blackhole : BH) bh det
    (R_min R_max : Q) (corotating : bool) :
  R_max <= R_min ->
  let acc := SimpleDisk.init blackhole R_min R_max corotating in
  acc = SimpleDisk.mk_structure R_min R_max
  /\ (R_max < R_min -> forall r, SimpleDisk.energy_flux acc r = inr 0)
  /\ (R_min == R_max -> forall r, SimpleDisk.energy_flux acc r = inl ZeroDivisionError)
  /\ (R_min == R_max -> forall p st,
        snd (geo_integ p bh acc det) = inr tt ->
        trace_photon bh acc det p st = inl ZeroDivisionError).
Proof.
  intros Hle acc. split; [reflexivity|]. split; [|split].
  - intros Hlt r. apply energy_flux_outside; cbn; lra.
  - intros Heq r. now apply energy_flux_equal_edges.
  - intros Heq p [traced image_data] Hret. unfold trace_photon.
    destruct (geo_integ_returns_state p bh acc det Hret) as [s Hs].
    destruct (geo_integ p bh acc det) as [p' out]. cbn [fst snd] in *.
    rewrite Hret, Hs. cbn [bind not_none ret].
    now rewrite (energy_flux_equal_edges acc) by exact Heq.
Qed.

End ConfigurationClaims.

Section PartitionClaims.
Import Parallel.


End PartitionClaims.

Section ReductionClaims.
Context `{NumLib}.

Lemma assemble_inr bh det acc a b img :
  assemble bh det acc a b = inr img ->
  img = table bh det acc a b
  /\ forall idx, a <= idx < b -> exists v, flux_of bh det acc idx = inr v.
Proof.
  unfold assemble. destruct (mapM _ _) as [|vs] eqn:Hvs; [discriminate|].
  cbn. intros [= <-]. split; [reflexivity|]. intros idx Hidx.
  apply mapM_inr in Hvs. apply range_elem in Hidx.
  apply list_elem_of_lookup in Hidx as [k Hk].
  destruct (Forall2_lookup_l _ _ _ _ _ Hvs Hk) as (v & _ & Hv). eauto.
Qed.

Lemma table_lookup bh det acc a b i j :
  0 <= i < Detector.x_pixels det -> 0 <= j < Detector.y_pixels det ->
  table bh det acc a b !! Z.to_nat i ≫= (.!! Z.to_nat j)
  = Some (cell bh det acc a b (i * columns det + j)).
Proof. intros Hi Hj. unfold table. now rewrite grid_lookup. Qed.

Lemma render_positive_columns bh det acc W img :
  well_formed det -> 1 <= W -> Driver.render bh det acc W = inr img -> 0 < columns det.
Proof.
  intros Hwf HW Hr. destruct (Z.eq_dec (columns det) 0) as [Hc0|Hc0].
  - unfold Driver.render in Hr. rewrite range_cons in Hr by lia. cbn [mapM] in Hr.
    rewrite worker_no_columns in Hr by assumption. discriminate.
  - unfold columns, Py.len in *. lia.
Qed.

(** C3.  For a detector whose coordinate ranges have the dimensions of the
    grid and every worker count [W >= 1], the elementwise sum of the [W]
    buffers built by [create_image] over the ranges given by [distribute]
    is the image built by a single worker over the whole grid, exceptions
    included.  Every worker's buffer is 0 at each pixel outside its range,
    and each pixel of the reduced image is the flux of that pixel, so the
    reduced image does not depend on [W]; it exists as soon as every
    pixel's photon is traced and sampled without an exception. *)
Theorem reduction_independent_of_worker_count bh det acc W :
  well_formed det ->
  1 <= W ->
  Driver.render bh det acc W = Driver.render bh det acc 1
  /\ (forall r buf, 0 <= r < W ->
        Driver.worker bh det acc r W = inr buf ->
        forall i j, 0 <= i < Detector.x_pixels det -> 0 <= j < Detector.y_pixels det ->
          ~ (start_idx det W r <= i * columns det + j < end_idx det W r) ->
          buf !! Z.to_nat i ≫= (.!! Z.to_nat j) = Some 0%Q)
  /\ (forall img, Driver.render bh det acc W = inr img ->
        forall i j, 0 <= i < Detector.x_pixels det -> 0 <= j < Detector.y_pixels det ->
          exists v, flux_of bh det acc (i * columns det + j) = inr v
                    /\ img !! Z.to_nat i ≫= (.!! Z.to_nat j) = Some v)
  /\ (0 < columns det ->
      (forall idx, 0 <= idx < total det -> exists v, flux_of bh det acc idx = inr v) ->
      exists img, Driver.render bh det acc W = inr img).
Proof.
  intros Hwf HW. split; [now apply render_any_workers|]. split; [|split].
  - intros r buf Hr Hbuf i j Hi Hj Hout.
    assert (Hc : 0 < columns det).
    { destruct (Z.eq_dec (columns det) 0) as [Hc0|Hc0].
      - rewrite worker_no_columns in Hbuf by assumption. discriminate.
      - unfold columns, Py.len in *. lia. }
    rewrite worker_assemble in Hbuf by assumption.
    apply assemble_inr in Hbuf as [-> _]. rewrite table_lookup by assumption.
    f_equal. unfold cell.
    destruct (Z.leb_spec (start_idx det W r) (i * columns det + j)),
             (Z.ltb_spec (i * columns det + j) (end_idx det W r));
      cbn [andb]; try reflexivity. lia.
  - intros img Himg i j Hi Hj.
    pose proof (render_positive_columns bh det acc W img Hwf HW Himg) as Hc.
    rewrite render_assemble in Himg by assumption.
    apply assemble_inr in Himg as [-> Hflux].
    assert (Hidx : 0 <= i * columns det + j < total det).
    { destruct Hwf as [_ Hy]. unfold total. fold (columns det) in Hy. nia. }
    destruct (Hflux _ Hidx) as [v Hv]. exists v. split; [exact Hv|].
    rewrite table_lookup by assumption. f_equal. unfold cell. rewrite Hv.
    destruct (Z.leb_spec 0 (i * columns det + j)),
             (Z.ltb_spec (i * columns det + j) (total det));
      cbn [andb]; try reflexivity; lia.
  - intros Hc Hall. rewrite render_assemble by assumption. unfold assemble.
    destruct (mapM_total (flux_of bh det acc) (Py.range 0 (total det))) as [vs Hvs].
    { intros idx Hidx. apply range_elem in Hidx. now apply Hall. }
    rewrite Hvs. cbn. eauto.
Qed.

Lemma flux_of_range bh det acc idx v :
  (SimpleDisk.in_edge acc < SimpleDisk.out_edge acc)%Q ->
  flux_of bh det acc idx = inr v -> (0 <= v /\ v < 1)%Q.
Proof.
  intros Hio. unfold flux_of, photon_flux.
  destruct (photon_at bh det idx) as [|p]; [discriminate|]. cbn [bind].
  destruct (Common.geo_integ p bh acc det) as [p' [|[]]]; [discriminate|]. cbn [bind].
  destruct (not_none _) as [|fP]; [discriminate|]. cbn [bind].
  now apply energy_flux_range.
Qed.


End ReductionClaims.

(** * The claims on concrete inputs *)

Section Instances.
Import Examples Common.

(** The horizon condition fires first (sample 8), the disk-crossing
    condition later (sample 24): the terminal state is sample 24. *)
Lemma disk_crossing_takes_priority_witness :
  exists s,
    Py.getitem path0 24 = inr s
    /\ geo_integ (photon 0) hole5 inner_disk screen23 = (Photon.set_fP (photon 0) s, inr tt)
    /\ Photon.fP (fst (geo_integ (photon 0) hole5 inner_disk screen23)) = Some s
    /\ crosses_disk inner_disk s
    /\ s <> zero_state.
Proof.
  destruct (disk_crossing_takes_priority (photon 0) hole5 inner_disk screen23 path0 24 8)
    as (s & H1 & H2 & H3 & H4 & _ & H5); try (vm_compute; reflexivity).
  exists s. repeat (split; [assumption|]). apply H5. vm_compute. discriminate.
Defined.

Lemma escaping_ray_zero_state_witness :
  Photon.fP (fst (geo_integ (photon 2) hole1 disk screen23)) = Some zero_state
  /\ snd (geo_integ (photon 2) hole1 disk screen23) = inr tt
  /\ Np.argmax (edge_condition 3 10 path2) = inr 0
  /\ Np.argmax (eh_condition hole1 path2) = inr 0
  /\ SimpleDisk.energy_flux disk (ps_r zero_state) = inr 0%Q.
Proof.
  destruct (escaping_ray_zero_state (photon 2) hole1 disk screen23 path2)
    as (H1 & H2 & H3).
  - vm_compute. reflexivity.
  - apply all_false_no_crossing. vm_compute. reflexivity.
  - apply all_false_no_capture. vm_compute. reflexivity.
  - destruct H2 as (H21 & H22 & H23); [discriminate|].
    repeat (split; [assumption|]). apply H3; reflexivity.
Defined.

Lemma captured_ray_zero_state_witness :
  geo_integ (photon 2) hole2 disk screen23 = (Photon.set_fP (photon 2) zero_state, inr tt)
  /\ Photon.fP (fst (geo_integ (photon 2) hole2 disk screen23)) = Some zero_state
  /\ photon_flux hole2 screen23 disk (photon 2) = inr 0%Q.
Proof.
  destruct (captured_ray_zero_state (photon 2) hole2 disk screen23 path2 0)
    as (H1 & H2 & _ & _ & H5).
  - vm_compute. reflexivity.
  - vm_compute. reflexivity.
  - vm_compute. reflexivity.
  - exists (mkPhase (-4) 2 (25 # 7) 0 1 1 0 0). split.
    + apply (list_elem_of_lookup_2 _ 31%nat). reflexivity.
    + vm_compute. reflexivity.
  - repeat (split; [assumption|]). apply H5.
    + vm_compute. discriminate.
    + vm_compute. discriminate.
Defined.

Lemma terminal_state_assigned_by_geo_integ_witness :
  Photon.fP (photon 2) = None
  /\ Photon.fP (fst (geo_integ (photon 2) hole1 disk screen23)) = Some zero_state.
Proof.
  split; [reflexivity|].
  apply (terminal_state_assigned_by_geo_integ (photon 2) hole1 disk screen23 path2).
  - reflexivity.
  - vm_compute. reflexivity.
  - apply all_false_no_crossing. vm_compute. reflexivity.
  - apply all_false_no_capture. vm_compute. reflexivity.
Defined.

Lemma initCond_lowers_momentum_witness :
  initCond (mkVec4 0 6 (11 # 7) 0) (mkVec4 (-1) 1 0 0) hole1
  = mkPhase 0 6 (11 # 7) 0 (-1 * -1 + 0 * 0)%Q (1 * 1)%Q (36 * 0)%Q (36 * 0 + 0 * -1)%Q.
Proof.
  apply (initCond_lowers_momentum (mkVec4 0 6 (11 # 7) 0) (mkVec4 (-1) 1 0 0) hole1
           (-1) 1 36 36 0).
  vm_compute. reflexivity.
Defined.

Lemma energy_flux_zero_outside_open_interval_witness :
  SimpleDisk.energy_flux disk 3 = inr 0%Q
  /\ SimpleDisk.energy_flux disk 10 = inr 0%Q.
Proof.
  split.
  - apply (energy_flux_zero_outside_open_interval disk 3).
    + vm_compute. discriminate.
    + left. reflexivity.
  - apply (energy_flux_zero_outside_open_interval disk 10).
    + vm_compute. discriminate.
    + right. left. reflexivity.
Defined.

Lemma malformed_extent_not_rejected_witness :
  SimpleDisk.init hole1 3 3 true = SimpleDisk.mk_structure 3 3
  /\ SimpleDisk.energy_flux (SimpleDisk.init hole1 3 3 true) 5 = inl ZeroDivisionError.
Proof.
  destruct (malformed_extent_not_rejected hole1 hole1 screen23 3 3 true)
    as (H1 & _ & H3 & _).
  - vm_compute. discriminate.
  - split; [exact H1|]. apply H3. reflexivity.
Defined.



Lemma reduction_independent_of_worker_count_witness :
  Driver.render hole2 screen23 disk 4 = Driver.render hole2 screen23 disk 1.
Proof.
  apply (reduction_independent_of_worker_count hole2 screen23 disk 4).
  - split; reflexivity.
  - lia.
Defined.

(** C5, counterexample: the disk of edges -1 and 1 is not crossed by the
    trajectory that ends at the horizon of radius 2; the captured photon
    gets the all-zero state and renders as the flux at radius 0, which is
    1/2, not zero. *)
Lemma captured_ray_nonzero_flux :
  trajectory (photon 2) hole2 screen23 = inr path2
  /\ Np.argmax (edge_condition (SimpleDisk.in_edge wide_disk)
                  (SimpleDisk.out_edge wide_disk) path2) = inr 0
  /\ Py.getitem (edge_condition (SimpleDisk.in_edge wide_disk)
                   (SimpleDisk.out_edge wide_disk) path2) 0 = inr false
  /\ (exists s, s ∈ path2 /\ captured hole2 s)
  /\ Photon.fP (fst (geo_integ (photon 2) hole2 wide_disk screen23)) = Some zero_state
  /\ photon_flux hole2 screen23 wide_disk (photon 2) = inr (1 # 2)%Q
  /\ photon_flux hole2 screen23 wide_disk (photon 2) <> inr 0%Q.
Proof.
  split; [vm_compute; reflexivity|].
  split; [vm_compute; reflexivity|].
  split; [vm_compute; reflexivity|].
  split.
  { exists (mkPhase (-4) 2 (25 # 7) 0 1 1 0 0). split.
    - apply (list_elem_of_lookup_2 _ 31%nat). reflexivity.
    - vm_compute. reflexivity. }
  split; [vm_compute; reflexivity|].
  split; [vm_compute; reflexivity|].
  vm_compute. discriminate.
Qed.


(** C7, counterexample: with equal edges the call raises, it does not
    return 0. *)
Lemma energy_flux_raises_on_equal_edges :
  let acc := SimpleDisk.mk_structure 3 3 in
  (3 == SimpleDisk.in_edge acc)%Q
  /\ SimpleDisk.energy_flux acc 3 = inl ZeroDivisionError
  /\ SimpleDisk.energy_flux acc 3 <> inr 0%Q.
Proof. split; [reflexivity|]. split; [reflexivity|discriminate]. Qed.

(** C8, counterexample: a disk with inner_edge = 10 >= outer_edge = 3 is
    accepted and the whole image is rendered. *)
Lemma malformed_extent_is_rendered :
  (3 <= 10)%Q
  /\ Driver.run hole2 screen23 10 3 1 = inr [[0; 0; 0]; [0; 0; 0]]%Q
  /\ ~ (exists e, Driver.run hole2 screen23 10 3 1 = inl e).
Proof.
  split; [vm_compute; discriminate|].
  assert (Hrun : Driver.run hole2 screen23 10 3 1 = inr [[0; 0; 0]; [0; 0; 0]]%Q)
    by (vm_compute; reflexivity).
  split; [exact Hrun|]. intros [e He]. rewrite Hrun in He. discriminate.
Qed.

(** C9, counterexample: a freshly constructed photon has no terminal
    state. *)
Lemma fresh_photon_has_no_terminal_state :
  Photon.fP (Photon.init 0 0) = None
  /\ Photon.fP (Photon.init 0 0) <> Some zero_state.
Proof. split; [reflexivity|discriminate]. Qed.

End Instances.

(** * Further properties

    Properties of the code beyond the claims. *)

(** ** The intersection resolver *)
Section ResolverMore.
Context `{NumLib}.
Import Common.

Lemma edge_condition_disk_test i o sol :
  edge_condition i o sol = disk_test i o <$> sol.
Proof. reflexivity. Qed.

Lemma first_true_find {A} (f : A -> bool) (l : list A) :
  match Np.first_true (f <$> l) with
  | Some k => exists a, l !! k = Some a /\ List.find f l = Some a
  | None => List.find f l = None
  end.
Proof.
  induction l as [|a l IH]; cbn; [reflexivity|].
  destruct (f a) eqn:Ea.
  - exists a. split; reflexivity.
  - destruct (Np.first_true (f <$> l)) as [k|]; cbn.
    + destruct IH as (b & Hb & Hf). exists b. split; assumption.
    + exact IH.
Qed.

(** What [geo_integ] does once the trajectory is there. *)
Lemma geo_integ_resolved p bh acc det sol :
  trajectory p bh det = inr sol ->
  geo_integ p bh acc det
  = (Photon.set_fP p (first_crossing acc sol),
     match sol with [] => inl ValueError | _ :: _ => inr tt end).
Proof.
  intros Htraj. destruct sol as [|s0 sol'] eqn:Esol.
  - now apply geo_integ_empty.
  - rewrite <- Esol in *. unfold first_crossing.
    set (ec := edge_condition (SimpleDisk.in_edge acc) (SimpleDisk.out_edge acc) sol).
    assert (Hne : ec <> []) by (unfold ec; rewrite Esol; discriminate).
    destruct (argmax_nonempty _ Hne) as [ie Hie].
    pose proof (argmax_range _ _ Hie) as Hr.
    pose proof (first_true_find
                  (disk_test (SimpleDisk.in_edge acc) (SimpleDisk.out_edge acc)) sol) as Hfind.
    rewrite <- edge_condition_disk_test in Hfind. fold ec in Hfind.
    destruct (Np.first_true ec) as [k|] eqn:Eft.
    + destruct Hfind as (a & Ha & Hf). rewrite Hf. cbn [default].
      assert (Hk : ie = Z.of_nat k).
      { unfold Np.argmax in Hie. destruct ec; [congruence|]. rewrite Eft in Hie.
        now injection Hie as <-. }
      apply first_true_Some in Eft as [Hkt _].
      assert (Hget : Py.getitem ec ie = inr true).
      { apply getitem_nonneg; [lia|]. now rewrite Hk, Nat2Z.id. }
      destruct (geo_integ_disk p bh acc det sol ie Htraj Hie Hget) as (s & Hs & _ & Hg).
      apply getitem_nonneg_inv in Hs; [|lia]. rewrite Hk, Nat2Z.id, Ha in Hs.
      injection Hs as ->. exact Hg.
    + rewrite Hfind. cbn [default].
      apply first_true_None in Eft.
      destruct (getitem_in_range _ _ Hr) as (b & Hb & Hgb).
      rewrite Forall_lookup in Eft. rewrite (Eft _ _ Hb) in Hgb.
      exact (geo_integ_no_disk p bh acc det sol ie Htraj Hie Hgb).
Qed.

(** X1.  Once the trajectory is there, [geo_integ] leaves the photon with the
    first sample (in trajectory order) that passes the disk test, or with the
    all-zero state when no sample passes it; it returns normally when the
    trajectory has at least one sample and raises [ValueError] on an empty
    one.  The index 0 that [argmax] yields on an all-false array is never
    taken for an event. *)
Theorem geo_integ_is_first_crossing p bh acc det sol :
  trajectory p bh det = inr sol ->
  geo_integ p bh acc det
  = (Photon.set_fP p (first_crossing acc sol),
     match sol with [] => inl ValueError | _ :: _ => inr tt end)
  /\ (first_crossing acc sol = zero_state
      \/ (first_crossing acc sol ∈ sol /\ crosses_disk acc (first_crossing acc sol))).
Proof.
  intros Htraj. split; [now apply geo_integ_resolved|].
  unfold first_crossing.
  destruct (List.find _ sol) as [s|] eqn:Ef; cbn [default]; [right|now left].
  apply find_some in Ef as [Hin Ht]. split; [now apply list_elem_of_In|].
  unfold disk_test in Ht.
  apply andb_true_iff in Ht as [Ht E3]. apply andb_true_iff in Ht as [E1 E2].
  apply Qlt_bool_iff in E1, E3. apply Qgt_bool_iff in E2. unfold crosses_disk. tauto.
Qed.

(** X2.  The horizon radius has no influence on what [geo_integ] does: two
    spacetimes with the same geodesic equations give the same photon and the
    same outcome, whatever their [EH]. *)
Theorem geo_integ_ignores_horizon p bh bh' acc det :
  Blackhole.geodesics bh = Blackhole.geodesics bh' ->
  geo_integ p bh acc det = geo_integ p bh' acc det.
Proof.
  intros Hgeo.
  assert (Ht : trajectory p bh det = trajectory p bh' det).
  { unfold trajectory. now rewrite Hgeo. }
  destruct (trajectory p bh' det) as [e|sol] eqn:E'.
  - unfold geo_integ. now rewrite Ht, E'.
  - now rewrite (geo_integ_resolved p bh acc det sol Ht),
                (geo_integ_resolved p bh' acc det sol E').
Qed.

(** X3.  [geo_integ] changes no attribute of the photon other than [fP]. *)
Theorem geo_integ_only_assigns_fP p bh acc det :
  exists o,
    fst (geo_integ p bh acc det)
    = Photon.mk (Photon.alpha p) (Photon.beta p) (Photon.i p) (Photon.j p)
                (Photon.xin p) (Photon.kin p) (Photon.iC p) o
    /\ (o = Photon.fP p \/ exists s, o = Some s).
Proof.
  unfold geo_integ. destruct (trajectory p bh det) as [|sol].
  { exists (Photon.fP p). destruct p. split; [reflexivity|now left]. }
  destruct (bind _ _) as [|[ih ie]]; [eexists; split; [reflexivity|right; eauto]|].
  destruct (Py.getitem _ ie) as [|[]]; [eexists; split; [reflexivity|right; eauto]| |].
  - destruct (Py.getitem sol ie); eexists; (split; [reflexivity|right; eauto]).
  - destruct (Py.getitem _ ih) as [|[]]; eexists; (split; [reflexivity|right; eauto]).
Qed.

(** X4.  When the trajectory cannot be set up, [geo_integ] raises before it
    touches the photon: [ValueError] for a negative detector distance,
    [AttributeError] for a photon without initial conditions. *)
Theorem geo_integ_fails_before_assignment p bh acc det :
  Detector.D det < 0 \/ Photon.iC p = None ->
  exists e, geo_integ p bh acc det = (p, inl e)
            /\ (Detector.D det < 0 -> e = ValueError)
            /\ (0 <= Detector.D det -> e = AttributeError).
Proof.
  intros Hbad. unfold geo_integ, trajectory, Np.linspace.
  destruct (Z.ltb_spec (8 * (2 * Detector.D det)) 0) as [Hneg|Hpos].
  - exists ValueError. cbn. split; [reflexivity|]. split; [reflexivity|lia].
  - destruct Hbad as [HD|HiC]; [lia|]. rewrite HiC. cbn.
    exists AttributeError. split; [reflexivity|]. split; [lia|reflexivity].
Qed.

End ResolverMore.

(** ** The work partitioner *)
Section DistributeMore.
Import Parallel.

Lemma index_range_nonzero rank size det :
  size <> 0 -> exists s e, index_range rank size det = inr (s, e).
Proof.
  intros Hs. unfold index_range, Py.floordiv, Py.modulo.
  replace (size =? 0) with false by (symmetry; apply Z.eqb_neq; lia).
  cbn [bind ret]. destruct (_ <? _); eauto.
Qed.

(** X7.  [distribute] raises exactly when the number of workers is 0 or the
    detector has no column ([betaRange] empty), and the exception is then
    [ZeroDivisionError]; the rank never makes it fail. *)
Theorem distribute_raises_iff rank size det e :
  distribute rank size det = inl e
  <-> (size = 0 \/ Detector.betaRange det = []) /\ e = ZeroDivisionError.
Proof.
  unfold distribute. split.
  - destruct (Z.eq_dec size 0) as [->|Hs].
    + cbn. intros [= <-]. auto.
    + destruct (index_range_nonzero rank size det Hs) as (s & e' & ->). cbn [bind].
      unfold Py.divmod, Py.len.
      destruct (Detector.betaRange det) as [|b l]; cbn; [intros [= <-]; auto|discriminate].
  - intros [[->|Hb] ->].
    + reflexivity.
    + destruct (Z.eq_dec size 0) as [->|Hs]; [reflexivity|].
      destruct (index_range_nonzero rank size det Hs) as (s & e' & ->). cbn [bind].
      rewrite Hb. reflexivity.
Qed.

(** X8.  The four numbers returned by [distribute] are the (row, column)
    form of the linear bounds: row * len(betaRange) + column gives the bound
    back and every column lies in [[0, len(betaRange))].  For a detector whose
    ranges have the dimensions of the grid and a rank below the number of
    workers, the rows stay within [[0, x_pixels]], in order, and the row
    x_pixels is only reached with column 0. *)
Theorem distribute_decodes rank size det sa sb ea eb :
  distribute rank size det = inr (sa, sb, ea, eb) ->
  index_range rank size det = inr (sa * columns det + sb, ea * columns det + eb)
  /\ 0 <= sb < columns det /\ 0 <= eb < columns det
  /\ (well_formed det -> 1 <= size -> 0 <= rank < size ->
      0 <= sa /\ sa <= ea /\ ea <= Detector.x_pixels det
      /\ (ea = Detector.x_pixels det -> eb = 0)).
Proof.
  unfold distribute. intros Hd.
  destruct (index_range rank size det) as [|[s e]] eqn:Hir; [discriminate|].
  cbn [bind] in Hd. fold (columns det) in Hd. unfold Py.divmod in Hd.
  destruct (Z.eqb_spec (columns det) 0) as [Hc0|Hc0]; [discriminate|].
  cbn in Hd. injection Hd as <- <- <- <-.
  assert (Hc : 0 < columns det) by (unfold columns, Py.len in *; lia).
  pose proof (linear_split det Hc s) as [Hs Hsb].
  pose proof (linear_split det Hc e) as [He Heb].
  split; [now rewrite <- Hs, <- He|]. split; [exact Hsb|]. split; [exact Heb|].
  intros Hwf HW Hr. destruct (grid_dims_nonneg det Hwf) as [Hx Hy].
  rewrite (index_range_eq det size HW) in Hir. injection Hir as <- <-.
  pose proof (ranges_within det size Hx Hy HW rank Hr) as [Hlo Hhi].
  pose proof (start_le_end det size Hx Hy HW rank) as Hle.
  assert (Htot : total det = Detector.x_pixels det * columns det).
  { unfold total. destruct Hwf as [_ ->]. reflexivity. }
  set (s := start_idx det size rank) in *. set (e := end_idx det size rank) in *.
  split; [apply Z.div_pos; lia|]. split; [apply Z.div_le_mono; lia|].
  assert (Hea : e / columns det <= Detector.x_pixels det).
  { apply Z.div_le_upper_bound; [lia|]. lia. }
  split; [exact Hea|]. intros Heq. rewrite Heq in He. lia.
Qed.

End DistributeMore.


(** ** The image assembler *)
Section AssemblerMore.
Context `{NumLib}.
Import Common.

Lemma getitem_lookup {A} (l : list A) i a :
  0 <= i -> Py.getitem l i = inr a -> l !! Z.to_nat i = Some a.
Proof. apply getitem_nonneg_inv. Qed.

Lemma new_photon_inv bh det i j p :
  new_photon bh det i j = inr p ->
  exists a b,
    Py.getitem (Detector.alphaRange det) i = inr a
    /\ Py.getitem (Detector.betaRange det) j = inr b
    /\ p = Photon.mk a b (Some i) (Some j)
             (Some (fst (Detector.photon_coords det a b)))
             (Some (snd (Detector.photon_coords det a b)))
             (Some (initCond (fst (Detector.photon_coords det a b))
                             (snd (Detector.photon_coords det a b)) bh))
             None.
Proof.
  unfold new_photon.
  destruct (Py.getitem (Detector.alphaRange det) i) as [|a]; [discriminate|].
  destruct (Py.getitem (Detector.betaRange det) j) as [|b]; [discriminate|].
  cbn [bind]. destruct (Detector.photon_coords det a b) as [xin kin] eqn:Epc.
  cbn. intros [= <-]. exists a, b. rewrite Epc.
  split; [reflexivity|]. split; reflexivity.
Qed.

Lemma distribute_inr det W r sa sb ea eb :
  1 <= W ->
  Parallel.distribute r W det = inr (sa, sb, ea, eb) ->
  0 < columns det
  /\ sa = start_idx det W r / columns det /\ sb = start_idx det W r mod columns det
  /\ ea = end_idx det W r / columns det /\ eb = end_idx det W r mod columns det.
Proof.
  intros HW. unfold Parallel.distribute. rewrite (index_range_eq det W HW). cbn [bind].
  fold (columns det). unfold Py.divmod.
  destruct (Z.eqb_spec (columns det) 0) as [Hc0|Hc0]; [discriminate|].
  cbn. intros [= <- <- <- <-].
  split; [unfold columns, Py.len in *; lia|]. auto.
Qed.

(** X9.  For a detector whose ranges have the dimensions of the grid,
    [create_photons] on the sub-range that [distribute] gives to a rank
    succeeds and builds one photon per linear index of the range, in
    increasing order: the photon number [k] belongs to the pixel
    (idx // len(betaRange), idx % len(betaRange)) with idx = start + k, carries
    the image-plane coordinates of that pixel, the position and momentum given
    by the detector, their initial conditions, and no terminal state. *)
Theorem create_photons_of_rank bh det W r sa sb ea eb :
  well_formed det -> 1 <= W -> 0 <= r < W ->
  Parallel.distribute r W det = inr (sa, sb, ea, eb) ->
  let c := columns det in
  let s := sa * c + sb in
  let e := ea * c + eb in
  exists ps,
    create_photons (Image.init sa sb ea eb) bh det
    = inr (Image.set_photons (Image.init sa sb ea eb) det ps)
    /\ Z.of_nat (length ps) = e - s
    /\ forall (k : nat) p, ps !! k = Some p ->
         let idx := s + Z.of_nat k in
         exists a b,
           Detector.alphaRange det !! Z.to_nat (idx / c) = Some a
           /\ Detector.betaRange det !! Z.to_nat (idx mod c) = Some b
           /\ p = Photon.mk a b (Some (idx / c)) (Some (idx mod c))
                    (Some (fst (Detector.photon_coords det a b)))
                    (Some (snd (Detector.photon_coords det a b)))
                    (Some (initCond (fst (Detector.photon_coords det a b))
                                    (snd (Detector.photon_coords det a b)) bh))
                    None.
Proof.
  intros Hwf HW Hr Hd c s e.
  destruct (distribute_inr det W r sa sb ea eb HW Hd) as (Hc & -> & -> & -> & ->).
  destruct (grid_dims_nonneg det Hwf) as [Hx Hy].
  pose proof (ranges_within det W Hx Hy HW r Hr) as [Hlo Hhi].
  pose proof (start_le_end det W Hx Hy HW r) as Hle.
  pose proof (linear_split det Hc (start_idx det W r)) as [Hs _].
  pose proof (linear_split det Hc (end_idx det W r)) as [He _].
  assert (Es : s = start_idx det W r) by (unfold s, c; lia).
  assert (Ee : e = end_idx det W r) by (unfold e, c; lia).
  clearbody s e. subst s e.
  destruct (photons_total bh det Hwf Hc (start_idx det W r) (end_idx det W r))
    as [ps Hps]; [lia|lia|].
  exists ps. split.
  - rewrite (create_photons_linear bh det Hc) by lia. now rewrite Hps.
  - apply mapM_inr in Hps. split.
    + rewrite <- (Forall2_length _ _ _ Hps). unfold Py.range.
      rewrite length_seqZ. lia.
    + intros k p Hk idx.
      destruct (Forall2_lookup_r _ _ _ _ _ Hps Hk) as (idx' & Hidx' & Hp).
      unfold Py.range in Hidx'. apply lookup_seqZ in Hidx' as [-> Hklt].
      fold idx in Hp. unfold photon_at in Hp. fold c in Hp.
      destruct (new_photon_inv _ _ _ _ _ Hp) as (a & b & Ha & Hb & ->).
      exists a, b.
      assert (0 <= idx / c) by (apply Z.div_pos; unfold idx; lia).
      pose proof (linear_split det Hc idx) as [_ Hm].
      split; [apply getitem_lookup; [lia|exact Ha]|].
      split; [apply getitem_lookup; [unfold c; lia|exact Hb]|]. reflexivity.
Qed.

End AssemblerMore.

Section AssemblerShape.
Context `{NumLib}.
Import Common.

Lemma setitem_inr {A} (l : list A) i v l' :
  Py.setitem l i v = inr l' -> exists k, l' = <[k := v]> l.
Proof.
  unfold Py.setitem. destruct (_ && _); [|discriminate]. intros [= <-]. eauto.
Qed.

Lemma getitem_elem {A} (l : list A) i a : Py.getitem l i = inr a -> a ∈ l.
Proof.
  unfold Py.getitem. destruct (_ && _); [|discriminate].
  destruct (l !! _) as [a'|] eqn:E; [|discriminate].
  intros [= <-]. eapply list_elem_of_lookup_2, E.
Qed.

Lemma grid_shape n m c : 0 <= n -> has_shape n m (grid n m c).
Proof.
  intros Hn. unfold has_shape, grid. split; [apply tab_length|].
  apply Forall_fmap, Forall_forall. intros i _. cbn. apply tab_length.
Qed.

Lemma setitem2_shape n m a i j v a' :
  Np.setitem2 a i j v = inr a' -> has_shape n m a -> has_shape n m a'.
Proof.
  unfold Np.setitem2. intros Hset [Hlen Hrows].
  destruct (Py.getitem a i) as [|row] eqn:Hrow; [discriminate|]. cbn [bind] in Hset.
  destruct (Py.setitem row j v) as [|row'] eqn:Hrow'; [discriminate|]. cbn [bind] in Hset.
  apply setitem_inr in Hset as [k ->]. apply setitem_inr in Hrow' as [k' ->].
  apply getitem_elem in Hrow. rewrite Forall_forall in Hrows.
  split; [now rewrite length_insert|].
  apply Forall_insert; [now apply Forall_forall|].
  rewrite length_insert. now apply Hrows.
Qed.

Lemma trace_photon_inr bh acc det p traced image traced' image' :
  trace_photon bh acc det p (traced, image) = inr (traced', image') ->
  traced' = traced ++ [fst (geo_integ p bh acc det)]
  /\ snd (geo_integ p bh acc det) = inr tt
  /\ exists i j v, Np.setitem2 image i j v = inr image'.
Proof.
  unfold trace_photon. destruct (geo_integ p bh acc det) as [p' [e|[]]]; [discriminate|].
  cbn [bind fst snd].
  destruct (not_none (Photon.fP p')) as [|fP]; [discriminate|]. cbn [bind].
  destruct (SimpleDisk.energy_flux acc (ps_r fP)) as [|flux]; [discriminate|]. cbn [bind].
  destruct (not_none (Photon.i p')) as [|i]; [discriminate|]. cbn [bind].
  destruct (not_none (Photon.j p')) as [|j]; [discriminate|]. cbn [bind].
  destruct (Np.setitem2 image i j flux) as [|img] eqn:Hset; [discriminate|].
  cbn. intros [= <- <-]. split; [reflexivity|]. split; [reflexivity|]. eauto.
Qed.

Lemma trace_loop_inr bh acc det n m l : forall traced image traced' image',
  for_ l (trace_photon bh acc det) (traced, image) = inr (traced', image') ->
  traced' = traced ++ ((fun p => fst (geo_integ p bh acc det)) <$> l)
  /\ Forall (fun p => snd (geo_integ p bh acc det) = inr tt) l
  /\ (has_shape n m image -> has_shape n m image').
Proof.
  induction l as [|p l IH]; intros traced image traced' image'; cbn [for_].
  - intros [= <- <-]. rewrite app_nil_r. auto.
  - destruct (trace_photon bh acc det p (traced, image)) as [|[traced1 image1]] eqn:Hp;
      [discriminate|].
    cbn [bind]. intros Hrest.
    apply trace_photon_inr in Hp as (-> & Hret & i & j & v & Hset).
    destruct (IH _ _ _ _ Hrest) as (-> & Hall & Hshape).
    split; [now rewrite <- app_assoc|]. split; [now constructor|].
    intros Hsh. apply Hshape. eapply setitem2_shape; eassumption.
Qed.

(** X12.  When [create_image] returns, the photon list of the image holds, in
    the same order, every photon as [geo_integ] left it; each of them was
    traced without an exception and has a terminal state; the image data is an
    array of x_pixels by y_pixels entries; the sub-range and the detector of
    the image are unchanged. *)
Theorem create_image_traces_every_photon self bh acc det l self' :
  Image.detector self = Some det ->
  Image.photon_list self = Some l ->
  create_image self bh acc = inr self' ->
  Image.photon_list self' = Some ((fun p => fst (geo_integ p bh acc det)) <$> l)
  /\ Forall (fun p => snd (geo_integ p bh acc det) = inr tt
                      /\ exists s, Photon.fP (fst (geo_integ p bh acc det)) = Some s) l
  /\ (exists a, Image.image_data self' = Some a
                /\ has_shape (Detector.x_pixels det) (Detector.y_pixels det) a)
  /\ Image.detector self' = Some det
  /\ (Image.start_alpha self', Image.start_beta self', Image.end_alpha self',
      Image.end_beta self')
     = (Image.start_alpha self, Image.start_beta self, Image.end_alpha self,
        Image.end_beta self).
Proof.
  intros Hdet Hl. unfold create_image. rewrite Hdet, Hl. cbn [attr bind ret].
  destruct (Np.zeros _ _) as [|image0] eqn:Hz; [discriminate|]. cbn [bind].
  destruct (for_ l _ _) as [|[traced image]] eqn:Hloop; [discriminate|].
  cbn [bind]. intros [= <-]. cbn.
  destruct (trace_loop_inr bh acc det (Detector.x_pixels det) (Detector.y_pixels det)
              l _ _ _ _ Hloop) as (-> & Hall & Hshape).
  split; [reflexivity|]. split; [|split; [|split; [exact Hdet|reflexivity]]].
  - eapply Forall_impl; [exact Hall|]. intros p Hret. split; [exact Hret|].
    now apply geo_integ_returns_state.
  - exists image. split; [reflexivity|]. apply Hshape.
    unfold Np.zeros in Hz. destruct (_ || _) eqn:Hneg; [discriminate|].
    injection Hz as <-. apply orb_false_iff in Hneg as [Hn _].
    apply Z.ltb_ge in Hn. split; [apply length_replicate|].
    apply Forall_replicate. apply length_replicate.
Qed.

(** X11.  For a detector whose ranges have the dimensions of the grid, the
    buffer that a worker returns is an array of x_pixels by y_pixels entries
    and holds, at every pixel of the worker's linear range, the flux of that
    pixel's photon. *)
Theorem worker_buffer_contents bh det acc W r s e buf :
  well_formed det -> 1 <= W -> 0 <= r < W ->
  Parallel.index_range r W det = inr (s, e) ->
  Driver.worker bh det acc r W = inr buf ->
  has_shape (Detector.x_pixels det) (Detector.y_pixels det) buf
  /\ forall i j, 0 <= i < Detector.x_pixels det -> 0 <= j < Detector.y_pixels det ->
       s <= i * columns det + j < e ->
       exists v, flux_of bh det acc (i * columns det + j) = inr v
                 /\ buf !! Z.to_nat i ≫= (.!! Z.to_nat j) = Some v.
Proof.
  intros Hwf HW Hr Hir Hbuf.
  rewrite (index_range_eq det W HW) in Hir. injection Hir as <- <-.
  assert (Hc : 0 < columns det).
  { destruct (Z.eq_dec (columns det) 0) as [Hc0|Hc0].
    - rewrite worker_no_columns in Hbuf by assumption. discriminate.
    - unfold columns, Py.len in *. lia. }
  destruct (grid_dims_nonneg det Hwf) as [Hx Hy].
  rewrite worker_assemble in Hbuf by assumption.
  apply assemble_inr in Hbuf as [-> Hflux]. split.
  - unfold table. now apply grid_shape.
  - intros i j Hi Hj Hin. destruct (Hflux _ Hin) as [v Hv]. exists v.
    split; [exact Hv|]. rewrite table_lookup by assumption. f_equal.
    unfold cell. rewrite Hv.
    destruct (Z.leb_spec (start_idx det W r) (i * columns det + j)),
             (Z.ltb_spec (i * columns det + j) (end_idx det W r));
      cbn [andb]; try reflexivity; lia.
Qed.

(** X10.  For a detector whose ranges have the dimensions of the grid and at
    least one column, the range of a rank is empty exactly when the rank is
    not below the number of pixels (so only with more workers than pixels);
    such a worker traces nothing and returns the all-zero buffer. *)
Theorem empty_assignment_is_zero_buffer bh det acc W r s e :
  well_formed det -> 0 < columns det -> 1 <= W -> 0 <= r < W ->
  Parallel.index_range r W det = inr (s, e) ->
  (s = e <-> total det <= r)
  /\ (s = e ->
      Driver.worker bh det acc r W
      = inr (replicate (Z.to_nat (Detector.x_pixels det))
               (replicate (Z.to_nat (Detector.y_pixels det)) 0%Q))).
Proof.
  intros Hwf Hc HW Hr Hir.
  rewrite (index_range_eq det W HW) in Hir. injection Hir as <- <-.
  destruct (grid_dims_nonneg det Hwf) as [Hx Hy].
  destruct (total_split det W Hx Hy HW) as (Ht & Hrest & Hbase).
  pose proof (range_size det W r) as Hsize. split.
  - destruct (Z.ltb_spec r (rest det W)); split; intros; nia.
  - intros Heq. rewrite worker_assemble by assumption. rewrite <- Heq.
    unfold assemble. rewrite range_nil by lia. cbn [mapM bind ret].
    rewrite table_empty. pose proof (zeros_grid _ _ Hx Hy) as Hz.
    unfold Np.zeros in Hz.
    replace (Detector.x_pixels det <? 0) with false in Hz by (symmetry; apply Z.ltb_ge; lia).
    replace (Detector.y_pixels det <? 0) with false in Hz by (symmetry; apply Z.ltb_ge; lia).
    cbn in Hz. unfold ret in Hz. injection Hz as Hz. now rewrite Hz.
Qed.

End AssemblerShape.

Section PixelValues.
Context `{NumLib}.
Import Common.

Lemma flux_of_sampled bh det acc idx v :
  flux_of bh det acc idx = inr v -> exists r, SimpleDisk.energy_flux acc r = inr v.
Proof.
  unfold flux_of, photon_flux.
  destruct (photon_at bh det idx) as [|p]; [discriminate|]. cbn [bind].
  destruct (geo_integ p bh acc det) as [p' [|[]]]; [discriminate|]. cbn [bind].
  destruct (not_none _) as [|fP]; [discriminate|]. cbn [bind]. eauto.
Qed.

(** X13.  [create_photons] builds no photon, and raises nothing, when the
    sub-range of the image is empty: the end row lies before the start row,
    or both are the same row and the end column is not beyond the start
    column. *)
Theorem create_photons_empty_range bh det sa sb ea eb :
  ea < sa \/ (ea = sa /\ eb <= sb) ->
  create_photons (Image.init sa sb ea eb) bh det
  = inr (Image.set_photons (Image.init sa sb ea eb) det []).
Proof.
  intros Hempty. unfold create_photons. cbn [Image.start_alpha Image.end_alpha
    Image.start_beta Image.end_beta Image.init].
  destruct Hempty as [Hlt|[-> Hle]].
  - rewrite range_nil by lia. reflexivity.
  - rewrite range_cons, (range_nil (sa + 1)) by lia. cbn [for_].
    rewrite Z.eqb_refl, range_nil by lia. reflexivity.
Qed.

(** X14.  With a disk whose inner edge lies beyond its outer edge
    (R_min > R_max) every rendered image is black: each pixel is 0. *)
Theorem inverted_extent_renders_black bh det (R_min R_max : Q) W img :
  (R_max < R_min)%Q -> well_formed det -> 1 <= W ->
  Driver.run bh det R_min R_max W = inr img ->
  forall row v, row ∈ img -> v ∈ row -> v = 0%Q.
Proof.
  intros Hinv Hwf HW Himg row v Hrow Hv. unfold Driver.run in Himg.
  set (acc := SimpleDisk.init bh R_min R_max true) in *.
  pose proof (render_positive_columns bh det acc W img Hwf HW Himg) as Hc.
  rewrite render_assemble in Himg by assumption.
  apply assemble_inr in Himg as [-> _].
  unfold table, grid in Hrow. apply list_elem_of_fmap in Hrow as (i & -> & _).
  apply list_elem_of_fmap in Hv as (j & -> & _). unfold cell.
  destruct (_ && _); [|reflexivity].
  destruct (flux_of bh det acc (i * columns det + j)) as [|v] eqn:Hv; [reflexivity|].
  apply flux_of_sampled in Hv as [r Hr].
  rewrite energy_flux_outside in Hr by (cbn; lra). now injection Hr as <-.
Qed.

(** X16.  For a disk with 0 <= in_edge < out_edge, a photon whose trajectory
    has been computed gets a flux different from 0 exactly when some sample
    of the trajectory satisfies the disk-crossing condition; the flux is the
    one at the radius of the first such sample. *)
Theorem photon_lit_iff_crossing p bh det acc sol :
  trajectory p bh det = inr sol -> sol <> [] ->
  (0 <= SimpleDisk.in_edge acc)%Q ->
  (SimpleDisk.in_edge acc < SimpleDisk.out_edge acc)%Q ->
  exists v,
    photon_flux bh det acc p = inr v
    /\ SimpleDisk.energy_flux acc (ps_r (first_crossing acc sol)) = inr v
    /\ (~ (v == 0)%Q <-> exists s, s ∈ sol /\ crosses_disk acc s).
Proof.
  intros Htraj Hne H0 Hio.
  pose proof (geo_integ_resolved p bh acc det sol Htraj) as Hg.
  destruct sol as [|s0 sol'] eqn:Esol; [congruence|]. rewrite <- Esol in *.
  unfold photon_flux. rewrite Hg. cbn [bind not_none Photon.fP Photon.set_fP ret].
  unfold first_crossing.
  set (test := disk_test (SimpleDisk.in_edge acc) (SimpleDisk.out_edge acc)).
  assert (Htest : forall s, test s = true <-> crosses_disk acc s).
  { intros s. unfold test, disk_test, crosses_disk.
    rewrite !andb_true_iff, !Qlt_bool_iff, Qgt_bool_iff. tauto. }
  destruct (List.find test sol) as [s|] eqn:Ef; cbn [default].
  - apply find_some in Ef as [Hin Ht]. apply Htest in Ht.
    destruct Ht as (Habs & Hlo & Hhi).
    destruct (energy_flux_inside acc (ps_r s) Hlo Hhi) as (v & Hv & _ & Hp & _).
    exists v. split; [exact Hv|]. split; [exact Hv|]. split.
    + intros _. exists s. split; [now apply list_elem_of_In|].
      unfold crosses_disk. tauto.
    + intros _. lra.
  - exists 0%Q.
    assert (Hz : SimpleDisk.energy_flux acc (ps_r zero_state) = inr 0%Q)
      by (apply energy_flux_outside; cbn; lra).
    split; [exact Hz|]. split; [exact Hz|]. split.
    + intros Hnz. exfalso. apply Hnz. reflexivity.
    + intros (s & Hs & Hc). exfalso.
      apply list_elem_of_In in Hs.
      pose proof (find_none _ _ Ef s Hs) as Hf.
      apply Htest in Hc. congruence.
Qed.

End PixelValues.


(** ** The result reducer *)
Section ReducerMore.

Lemma shape_entry n m a (i j : nat) :
  has_shape n m a -> (i < Z.to_nat n)%nat -> (j < Z.to_nat m)%nat ->
  exists row v, a !! i = Some row /\ row !! j = Some v /\ entry a i j = v.
Proof.
  intros [Hlen Hrows] Hi Hj.
  destruct (lookup_lt_is_Some_2 a i) as [row Hrow]; [lia|].
  pose proof (Forall_lookup_1 _ _ _ _ Hrows Hrow) as Hrl. cbn in Hrl.
  destruct (lookup_lt_is_Some_2 row j) as [v Hv]; [lia|].
  exists row, v. split; [exact Hrow|]. split; [exact Hv|].
  unfold entry. rewrite Hrow. cbn. now rewrite Hv.
Qed.

Lemma add_shape n m a b :
  has_shape n m a -> has_shape n m b -> has_shape n m (Np.add a b).
Proof.
  intros [Hla Hra] [Hlb Hrb]. unfold Np.add. split.
  - rewrite length_zip_with. lia.
  - apply Forall_lookup. intros i row Hrow.
    apply lookup_zip_with_Some in Hrow as (ra & rb & -> & Ha & Hb).
    pose proof (Forall_lookup_1 _ _ _ _ Hra Ha) as H1.
    pose proof (Forall_lookup_1 _ _ _ _ Hrb Hb) as H2. cbn in H1, H2.
    rewrite length_zip_with. lia.
Qed.

Lemma add_entry n m a b (i j : nat) :
  has_shape n m a -> has_shape n m b -> (i < Z.to_nat n)%nat -> (j < Z.to_nat m)%nat ->
  entry (Np.add a b) i j = (entry a i j + entry b i j)%Q.
Proof.
  intros Ha Hb Hi Hj.
  destruct (shape_entry n m a i j Ha Hi Hj) as (ra & va & Hra & Hva & ->).
  destruct (shape_entry n m b i j Hb Hi Hj) as (rb & vb & Hrb & Hvb & ->).
  unfold entry, Np.add. rewrite lookup_zip_with, Hra, Hrb. cbn.
  now rewrite lookup_zip_with, Hva, Hvb.
Qed.

Lemma sum_from n m (rest : list ImageBuffer) : forall first,
  has_shape n m first -> Forall (has_shape n m) rest ->
  has_shape n m (fold_left Np.add rest first)
  /\ forall i j : nat, (i < Z.to_nat n)%nat -> (j < Z.to_nat m)%nat ->
       entry (fold_left Np.add rest first) i j
       = fold_left (fun s b => (s + entry b i j)%Q) rest (entry first i j).
Proof.
  induction rest as [|b rest IH]; intros first Hf Hrest; cbn [fold_left].
  - split; [exact Hf|reflexivity].
  - apply Forall_cons_1 in Hrest as [Hb Hrest].
    destruct (IH (Np.add first b) (add_shape n m _ _ Hf Hb) Hrest) as [Hshape Hentry].
    split; [exact Hshape|]. intros i j Hi Hj.
    rewrite Hentry by assumption. now rewrite (add_entry n m) by assumption.
Qed.

(** X17.  On rank 0, for gathered buffers that all have the dimensions of the
    grid, [gather_and_process_data] returns an array of the same dimensions
    whose entry at each pixel is the sum, in rank order, of the buffers'
    entries at that pixel; on every other rank it returns [None]. *)
Theorem gather_sums_in_rank_order image_data det rank first rest :
  0 <= Detector.x_pixels det -> 0 <= Detector.y_pixels det ->
  Forall (has_shape (Detector.x_pixels det) (Detector.y_pixels det)) (first :: rest) ->
  (rank <> 0 ->
   Parallel.gather_and_process_data image_data det rank (first :: rest) = inr None)
  /\ exists final,
       Parallel.gather_and_process_data image_data det 0 (first :: rest) = inr (Some final)
       /\ has_shape (Detector.x_pixels det) (Detector.y_pixels det) final
       /\ forall i j : nat,
            (i < Z.to_nat (Detector.x_pixels det))%nat ->
            (j < Z.to_nat (Detector.y_pixels det))%nat ->
            entry final i j
            = fold_left (fun s b => (s + entry b i j)%Q) rest (entry first i j).
Proof.
  intros Hx Hy Hall. apply Forall_cons_1 in Hall as [Hf Hrest]. split.
  - intros Hr. unfold Parallel.gather_and_process_data.
    now replace (rank =? 0) with false by (symmetry; apply Z.eqb_neq; lia).
  - exists (fold_left Np.add rest first). split.
    + unfold Parallel.gather_and_process_data. rewrite zeros_grid by assumption.
      reflexivity.
    + now apply sum_from.
Qed.

End ReducerMore.

(** ** The further properties on concrete inputs *)
Section MoreInstances.
Import Examples Common.

Lemma geo_integ_is_first_crossing_witness :
  geo_integ (photon 0) hole5 inner_disk screen23
  = (Photon.set_fP (photon 0) (first_crossing inner_disk path0), inr tt)
  /\ first_crossing inner_disk path0 ∈ path0
  /\ crosses_disk inner_disk (first_crossing inner_disk path0).
Proof.
  destruct (geo_integ_is_first_crossing (photon 0) hole5 inner_disk screen23 path0)
    as [Hg [Hz|[Hin Hc]]].
  - vm_compute. reflexivity.
  - vm_compute in Hz. discriminate.
  - split; [exact Hg|]. split; assumption.
Defined.

Lemma geo_integ_ignores_horizon_witness :
  geo_integ (photon 2) hole1 disk screen23 = geo_integ (photon 2) hole2 disk screen23.
Proof.
  apply (geo_integ_ignores_horizon (photon 2) hole1 hole2 disk screen23). reflexivity.
Defined.

Lemma geo_integ_fails_before_assignment_witness :
  geo_integ (Photon.init 0 0) hole1 disk screen23 = (Photon.init 0 0, inl AttributeError).
Proof.
  destruct (geo_integ_fails_before_assignment (Photon.init 0 0) hole1 disk screen23)
    as (e & Hg & _ & He).
  - right. reflexivity.
  - rewrite Hg, He; [reflexivity|]. vm_compute. discriminate.
Defined.

Lemma distribute_decodes_witness :
  Parallel.index_range 1 4 screen23
  = inr (0 * columns screen23 + 2, 1 * columns screen23 + 1)
  /\ 0 <= 2 < columns screen23 /\ 0 <= 1 < columns screen23
  /\ 1 <= Detector.x_pixels screen23.
Proof.
  destruct (distribute_decodes 1 4 screen23 0 2 1 1) as (Hir & Hsb & Heb & Hrows).
  - vm_compute. reflexivity.
  - split; [exact Hir|]. split; [exact Hsb|]. split; [exact Heb|].
    apply Hrows; [split; reflexivity|lia|lia].
Defined.

Lemma create_photons_of_rank_witness :
  exists ps,
    create_photons (Image.init 0 2 1 1) hole2 screen23
    = inr (Image.set_photons (Image.init 0 2 1 1) screen23 ps)
    /\ Z.of_nat (length ps) = 2.
Proof.
  destruct (create_photons_of_rank hole2 screen23 4 1 0 2 1 1) as (ps & Hps & Hlen & _).
  - split; reflexivity.
  - lia.
  - lia.
  - vm_compute. reflexivity.
  - exists ps. split; [exact Hps|exact Hlen].
Defined.

Lemma empty_assignment_is_zero_buffer_witness :
  Driver.worker hole2 screen23 disk 6 7 = inr [[0; 0; 0]; [0; 0; 0]]%Q.
Proof.
  destruct (empty_assignment_is_zero_buffer hole2 screen23 disk 7 6 6 6) as [_ Hw].
  - split; reflexivity.
  - reflexivity.
  - lia.
  - lia.
  - vm_compute. reflexivity.
  - exact (Hw eq_refl).
Defined.

Lemma worker_buffer_contents_witness :
  has_shape 2 3 [[0; 0; 0]; [4 # 7; 0; 0]]%Q
  /\ exists v, flux_of hole2 screen23 disk (1 * columns screen23 + 0) = inr v
               /\ [[0; 0; 0]; [4 # 7; 0; 0]]%Q !! Z.to_nat 1 ≫= (.!! Z.to_nat 0) = Some v.
Proof.
  destruct (worker_buffer_contents hole2 screen23 disk 4 1 2 4
              [[0; 0; 0]; [4 # 7; 0; 0]]%Q) as [Hshape Hval].
  - split; reflexivity.
  - lia.
  - lia.
  - vm_compute. reflexivity.
  - vm_compute. reflexivity.
  - split; [exact Hshape|]. apply (Hval 1 0).
    + vm_compute. split; [discriminate|reflexivity].
    + vm_compute. split; [discriminate|reflexivity].
    + vm_compute. split; [discriminate|reflexivity].
Defined.

Lemma create_image_traces_every_photon_witness :
  exists self',
    create_image image_r1 hole2 disk = inr self'
    /\ Image.photon_list self'
       = Some ((fun p => fst (geo_integ p hole2 disk screen23)) <$> photons_r1)
    /\ exists a, Image.image_data self' = Some a /\ has_shape 2 3 a.
Proof.
  destruct (create_image image_r1 hole2 disk) as [e|self'] eqn:E.
  - vm_compute in E. discriminate.
  - exists self'. split; [reflexivity|].
    destruct (create_image_traces_every_photon image_r1 hole2 disk screen23 photons_r1 self')
      as (Hl & _ & Ha & _).
    + reflexivity.
    + reflexivity.
    + exact E.
    + split; [exact Hl|exact Ha].
Defined.

Lemma create_photons_empty_range_witness :
  create_photons (Image.init 1 2 1 2) hole2 screen23
  = inr (Image.set_photons (Image.init 1 2 1 2) screen23 []).
Proof.
  apply (create_photons_empty_range hole2 screen23 1 2 1 2). right. lia.
Defined.

Lemma inverted_extent_renders_black_witness :
  Driver.run hole2 screen23 10 3 1 = inr [[0; 0; 0]; [0; 0; 0]]%Q
  /\ Forall (Forall (fun v => v = 0%Q)) [[0; 0; 0]; [0; 0; 0]]%Q.
Proof.
  assert (Hrun : Driver.run hole2 screen23 10 3 1 = inr [[0; 0; 0]; [0; 0; 0]]%Q)
    by (vm_compute; reflexivity).
  split; [exact Hrun|].
  apply Forall_forall. intros row Hrow. apply Forall_forall. intros v Hv.
  apply (inverted_extent_renders_black hole2 screen23 10 3 1 _
           ltac:(reflexivity) ltac:(split; reflexivity) ltac:(lia) Hrun row v Hrow Hv).
Defined.

Lemma photon_lit_iff_crossing_witness :
  exists v,
    photon_flux hole5 screen23 inner_disk (photon 0) = inr v
    /\ SimpleDisk.energy_flux inner_disk (ps_r (first_crossing inner_disk path0)) = inr v
    /\ (~ (v == 0)%Q <-> exists s, s ∈ path0 /\ crosses_disk inner_disk s).
Proof.
  apply (photon_lit_iff_crossing (photon 0) hole5 screen23 inner_disk path0).
  - vm_compute. reflexivity.
  - discriminate.
  - vm_compute. discriminate.
  - reflexivity.
Defined.

Lemma gather_sums_in_rank_order_witness :
  exists final,
    Parallel.gather_and_process_data [[4 # 7; 4 # 7; 0]; [0; 0; 0]]%Q screen23 0
      [[[4 # 7; 4 # 7; 0]; [0; 0; 0]]; [[0; 0; 0]; [4 # 7; 0; 0]]]%Q
    = inr (Some final)
    /\ has_shape 2 3 final
    /\ entry final 1 0 = (0 + (4 # 7))%Q.
Proof.
  destruct (gather_sums_in_rank_order [[4 # 7; 4 # 7; 0]; [0; 0; 0]]%Q screen23 0
              [[4 # 7; 4 # 7; 0]; [0; 0; 0]]%Q [[[0; 0; 0]; [4 # 7; 0; 0]]]%Q)
    as (_ & final & Hg & Hshape & Hentry).
  - vm_compute. discriminate.
  - vm_compute. discriminate.
  - repeat constructor.
  - exists final. split; [exact Hg|]. split; [exact Hshape|].
    apply (Hentry 1%nat 0%nat); vm_compute; lia.
Defined.

End MoreInstances.
